(** * Intune: the harmonic compatibility engine

    A shallow embedding of [backend/services/harmonicCompatibility.js]
    (class [HarmonicCompatibilityEngine]) and the properties of its key
    parser, key and tempo classifiers, overall scorer, candidate ranker and
    suggestion generator.

    Conventions of the embedding.
    - A JavaScript string is the list of its UTF-16 code units ([list N]);
      [js "..."] turns an ASCII literal into such a list.  Labels, reasons
      and descriptions, which the engine only builds from literals and
      decimal digits, are kept as [string].
    - The Number values the engine handles as integers (results of
      [parseInt], their differences, [Math.round]) are values of [number]:
      an exact integer, an infinity or NaN.  The rounding of IEEE binary64
      is written out in [F].  The two zeros are identified: no test of the
      engine tells them apart.  Quotients and weighted sums, which are not
      integers, are computed on binary64 floats ([float]).
    - A method that can raise returns a [completion]. *)

From Stdlib Require Import ZArith NArith List String Ascii Bool Lia.
From Stdlib Require Import DecimalString.
From Stdlib Require Import PrimFloat FloatOps SpecFloat.
From Stdlib Require Import Sorting.Permutation Sorting.Sorted.
From stdpp Require Import gmap strings.

Set Warnings "-inexact-float,-register-all".
Local Open Scope Z_scope.

(** ** Strings *)

Abbreviation jsstring := (list N).

Definition js (s : string) : jsstring :=
  map N_of_ascii (list_ascii_of_string s).

Fixpoint units_eqb (s t : jsstring) : bool :=
  match s, t with
  | [], [] => true
  | c :: s', d :: t' => N.eqb c d && units_eqb s' t'
  | _, _ => false
  end.

(** WhiteSpace and LineTerminator code points: what [trim], [parseInt] and
    the regular expression class [\s] all skip. *)
Definition isWhiteSpace (c : N) : bool :=
  (N.leb 9 c && N.leb c 13) || N.eqb c 32 || N.eqb c 160 || N.eqb c 5760
  || (N.leb 8192 c && N.leb c 8202) || N.eqb c 8232 || N.eqb c 8233
  || N.eqb c 8239 || N.eqb c 8287 || N.eqb c 12288 || N.eqb c 65279.

Fixpoint trimStart (s : jsstring) : jsstring :=
  match s with
  | c :: r => if isWhiteSpace c then trimStart r else s
  | [] => []
  end.

Definition trim (s : jsstring) : jsstring :=
  rev (trimStart (rev (trimStart s))).

(** [toLowerCase] on the basic Latin letters.  The engine lowers only text
    captured by its key pattern, which holds no other letter. *)
Definition lower_unit (c : N) : N :=
  if N.leb 65 c && N.leb c 90 then (c + 32)%N else c.

Definition toLowerCase (s : jsstring) : jsstring := map lower_unit s.

Definition endsWith (s suffix : jsstring) : bool :=
  units_eqb (skipn (length s - length suffix)%nat s) suffix
  && Nat.leb (length suffix) (length s).

(** [String.prototype.includes] on literal text. *)
Fixpoint includes (s needle : string) : bool :=
  String.prefix needle s
  || match s with
     | String _ r => includes r needle
     | EmptyString => false
     end.

(** ** Numbers *)

Inductive number :=
  | NaN
  | Infinity (negative : bool)
  | Int (z : Z).

(** The Number nearest to an integer: round to nearest, ties to even, on 53
    significant bits; beyond the largest finite double the result is an
    infinity. *)
Definition F (z : Z) : number :=
  let a := Z.abs z in
  let k := Z.log2 a - 52 in
  if k <=? 0 then Int z
  else
    let q := a / 2 ^ k in
    let r := a mod 2 ^ k in
    let half := 2 ^ (k - 1) in
    let q' :=
      if r <? half then q
      else if half <? r then q + 1
      else if Z.even q then q else q + 1 in
    let v := q' * 2 ^ k in
    if 2 ^ 1024 <=? v then Infinity (z <? 0) else Int (Z.sgn z * v).

(** The binary64 float of a [number] (exact on the values [F] returns). *)
Definition toF (n : number) : float :=
  match n with
  | NaN => nan
  | Infinity s => if s then neg_infinity else infinity
  | Int 0 => zero
  | Int z =>
      let a := Z.abs z in
      let k := Z.max 0 (Z.log2 a - 52) in
      SF2Prim (S754_finite (z <? 0) (Z.to_pos (a / 2 ^ k)) k)
  end.

Definition isNaN (n : number) : bool :=
  match n with NaN => true | _ => false end.

(** [a - b] on Numbers. *)
Definition number_sub (a b : number) : number :=
  match a, b with
  | NaN, _ | _, NaN => NaN
  | Infinity s, Infinity t => if Bool.eqb s t then NaN else Infinity s
  | Infinity s, Int _ => Infinity s
  | Int _, Infinity t => Infinity (negb t)
  | Int x, Int y => F (x - y)
  end.

Definition Math_abs (n : number) : number :=
  match n with
  | NaN => NaN
  | Infinity _ => Infinity false
  | Int z => Int (Z.abs z)
  end.

(** [a === b], [a <= b] on Numbers; every comparison with NaN is false. *)
Definition number_eqb (a b : number) : bool :=
  match a, b with
  | Int x, Int y => x =? y
  | Infinity s, Infinity t => Bool.eqb s t
  | _, _ => false
  end.

Definition number_leb (a b : number) : bool :=
  match a, b with
  | NaN, _ | _, NaN => false
  | Infinity s, Infinity t => s || negb t
  | Infinity s, Int _ => s
  | Int _, Infinity t => negb t
  | Int x, Int y => x <=? y
  end.

Definition number_ltb (a b : number) : bool :=
  number_leb a b && negb (number_eqb a b).

(** [Math.round]: the integer nearest to [x], the larger one on a tie. *)
Definition Math_round (x : float) : number :=
  match Prim2SF x with
  | S754_nan => NaN
  | S754_infinity s => Infinity s
  | S754_zero _ => Int 0
  | S754_finite s m e =>
      let v := if s then Z.neg m else Z.pos m in
      if 0 <=? e then Int (v * 2 ^ e)
      else Int ((2 * v + 2 ^ (- e)) / 2 ^ (1 - e))
  end.

(** *** Number to string

    [Number::toString] for the values of [number]: the shortest decimal
    digits that read back as the same double, padded with zeros up to 21
    digits and in exponent form beyond. *)

Definition decimal (a : Z) : string :=
  NilZero.string_of_uint (N.to_uint (Z.to_N a)).

Definition ndigits (a : Z) : Z := Z.of_nat (String.length (decimal a)).

Definition shortest_at (v k : Z) : option Z :=
  let e := ndigits v - k in
  if e <=? 0 then Some v
  else
    let p := 10 ^ e in
    let lo := v / p * p in
    let hi := lo + p in
    let reads_back c := number_eqb (F c) (Int v) in
    match reads_back lo, reads_back hi with
    | true, true =>
        Some (if v - lo <? hi - v then lo
              else if hi - v <? v - lo then hi
              else if Z.even (lo / p) then lo else hi)
    | true, false => Some lo
    | false, true => Some hi
    | false, false => None
    end.

Definition shortest (v : Z) : Z :=
  let tries := map (fun k => shortest_at v (Z.of_nat k)) (seq 1 17) in
  match omap id tries with
  | w :: _ => w
  | [] => v
  end.

Fixpoint strip_zeros (rev_digits : list ascii) : list ascii :=
  match rev_digits with
  | "0"%char :: r => strip_zeros r
  | _ => rev_digits
  end.

Definition positive_toString (v : Z) : string :=
  let d := decimal (shortest v) in
  let n := String.length d in
  if Nat.leb n 21 then d
  else
    let exponent := decimal (Z.of_nat n - 1) in
    match rev (strip_zeros (rev (list_ascii_of_string d))) with
    | [] => d
    | [c] => String c ("e+" ++ exponent)
    | c :: rest =>
        String c ("." ++ string_of_list_ascii rest ++ "e+" ++ exponent)
    end.

Definition Number_toString (n : number) : string :=
  match n with
  | NaN => "NaN"
  | Infinity s => if s then "-Infinity" else "Infinity"
  | Int 0 => "0"
  | Int (Z.pos p) => positive_toString (Z.pos p)
  | Int (Z.neg p) => "-" ++ positive_toString (Z.pos p)
  end.

(** ** Results of the engine *)

(** [{ compatibility, score, reason }], the result of the key and of the
    tempo classifier. *)
Record compat := {
  compatibility : string;
  score : Z;
  reason : string;
}.

(** [{ compatibility, score, description }], the overall part of a verdict. *)
Record overall_t := {
  overall_compatibility : string;
  overall_score : number;
  description : string;
}.

(** [{ overall, key, bpm, mixing_advice }]. *)
Record verdict := {
  overall : overall_t;
  v_key : compat;
  v_bpm : compat;
  mixing_advice : list string;
}.

(** ** Values and completions *)

(** The values a caller hands to the engine.  Numbers are those of
    [number]; an object is a plain object (its prototype is
    [Object.prototype]), the finite map of its own properties.  No value is
    a function. *)
Inductive value :=
  | VUndefined
  | VNull
  | VBool (b : bool)
  | VNum (n : number)
  | VStr (s : jsstring)
  | VObj (o : gmap string value).

Inductive exn :=
  | TypeError (message : string).

Inductive completion (A : Type) :=
  | Normal (a : A)
  | Throw (e : exn).
Arguments Normal {A} a.
Arguments Throw {A} e.

#[global] Instance completion_ret : MRet completion := @Normal.
#[global] Instance completion_bind : MBind completion :=
  fun A B f c => match c with Normal a => f a | Throw e => Throw e end.
#[global] Instance completion_fmap : FMap completion :=
  fun A B f c => match c with Normal a => Normal (f a) | Throw e => Throw e end.

(** [!v] is [negb (truthy v)]. *)
Definition truthy (v : value) : bool :=
  match v with
  | VUndefined | VNull => false
  | VBool b => b
  | VNum NaN | VNum (Int 0) => false
  | VNum _ => true
  | VStr s => negb (units_eqb s [])
  | VObj _ => true
  end.

(** [v === "literal"]. *)
Definition is_string (v : value) (literal : string) : bool :=
  match v with
  | VStr s => units_eqb s (js literal)
  | _ => false
  end.

(** [v.trim()]: only a string has the method. *)
Definition call_trim (receiver : string) (v : value) : completion jsstring :=
  match v with
  | VStr s => Normal (trim s)
  | _ => Throw (TypeError (receiver ++ ".trim is not a function"))
  end.

(** [ToString(v)].  An object is converted by [OrdinaryToPrimitive], which
    calls its [toString] when that is callable and its [valueOf] otherwise.
    An own [toString] hides the one of [Object.prototype] and, no value being
    a function, is not callable; [valueOf] then is not callable either (an
    own one) or returns the object itself (the inherited one), so that no
    primitive is found: TypeError.  An object without an own [toString] is
    answered by [Object.prototype.toString]. *)
Definition ToString (v : value) : completion jsstring :=
  match v with
  | VUndefined => mret (js "undefined")
  | VNull => mret (js "null")
  | VBool b => mret (js (if b then "true" else "false"))
  | VNum n => mret (js (Number_toString n))
  | VStr s => mret s
  | VObj o =>
      match o !! "toString" with
      | Some _ => Throw (TypeError "Cannot convert object to primitive value")
      | None => mret (js "[object Object]")
      end
  end.

(** *** parseInt *)

Definition digit_value (radix : Z) (c : N) : option Z :=
  let d :=
    if N.leb 48 c && N.leb c 57 then Some (Z.of_N c - 48)
    else if N.leb 97 c && N.leb c 122 then Some (Z.of_N c - 87)
    else if N.leb 65 c && N.leb c 90 then Some (Z.of_N c - 55)
    else None in
  match d with
  | Some d => if d <? radix then Some d else None
  | None => None
  end.

(** The integer written by the longest prefix of digits; [None] when the
    prefix is empty. *)
Fixpoint parse_digits (radix : Z) (s : jsstring) (acc : option Z) : option Z :=
  match s with
  | c :: r =>
      match digit_value radix c with
      | Some d => parse_digits radix r (Some (radix * default 0 acc + d))
      | None => acc
      end
  | [] => acc
  end.

(** The steps of [parseInt] on the string its argument converts to, without
    a radix: leading white space, a sign, a [0x] prefix, then digits. *)
Definition parse_integer (inputString : jsstring) : number :=
  let s := trimStart inputString in
  let '(negative, s) :=
    match s with
    | 45%N :: r => (true, r)
    | 43%N :: r => (false, r)
    | _ => (false, s)
    end in
  let '(radix, s) :=
    match s with
    | 48%N :: x :: r => if N.eqb x 120 || N.eqb x 88 then (16, r) else (10, s)
    | _ => (10, s)
    end in
  match parse_digits radix s None with
  | None => NaN
  | Some mathInt => F (if negative then - mathInt else mathInt)
  end.

(** [parseInt(v)]: the argument is converted to a string first. *)
Definition parseInt (v : value) : completion number :=
  inputString ← ToString v;
  mret (parse_integer inputString).

(** ** The key parser *)

(** The constructor's table, in the order of the object literal (the order
    [Object.entries] walks it in). *)
Definition circleOfFifths : list (jsstring * Z) :=
  map (fun e => (js (fst e), snd e))
    [ ("C", 0); ("G", 1); ("D", 2); ("A", 3); ("E", 4); ("B", 5);
      ("F#", 6); ("Gb", 6); ("C#", 7); ("Db", 7); ("Ab", 8); ("Eb", 9);
      ("Bb", 10); ("F", 11);
      ("Am", 0); ("Em", 1); ("Bm", 2); ("F#m", 3); ("C#m", 4); ("G#m", 5);
      ("D#m", 6); ("Ebm", 6); ("A#m", 7); ("Bbm", 7); ("Fm", 8); ("Cm", 9);
      ("Gm", 10); ("Dm", 11) ].

(** [table[name]]: the own property, [None] for [undefined].  No property
    inherited from [Object.prototype] has a name a normalized key can take. *)
Fixpoint property (table : list (jsstring * Z)) (name : jsstring) : option Z :=
  match table with
  | (k, p) :: rest => if units_eqb k name then Some p else property rest name
  | [] => None
  end.

(** The pattern [/^([A-G][#b]?)\s*(major|minor|maj|min|m)?$/i], as the
    backtracking search a regular expression engine runs: each choice is
    tried in the order of the pattern, the next one only after the rest of
    the pattern failed. *)

Definition orElse {A} (x y : option A) : option A :=
  match x with Some _ => x | None => y end.

(** [[A-G]] and [[#b]] under the [i] flag. *)
Definition isNoteLetter (c : N) : bool :=
  (N.leb 65 c && N.leb c 71) || (N.leb 97 c && N.leb c 103).

Definition isAccidental (c : N) : bool :=
  N.eqb c 35 || N.eqb c 98 || N.eqb c 66.

(** A literal under the [i] flag: the matched text and what follows it. *)
Fixpoint literal_i (tok s : jsstring) : option (jsstring * jsstring) :=
  match tok, s with
  | [], _ => Some ([], s)
  | p :: tok', c :: s' =>
      if N.eqb (lower_unit p) (lower_unit c) then
        match literal_i tok' s' with
        | Some (m, r) => Some (c :: m, r)
        | None => None
        end
      else None
  | _ :: _, [] => None
  end.

(** [$] *)
Definition atEnd {A} (s : jsstring) (a : A) : option A :=
  match s with [] => Some a | _ :: _ => None end.

Definition modeAlternative (tok : string) (s : jsstring) : option (option jsstring) :=
  match literal_i (js tok) s with
  | Some (m, r) => atEnd r (Some m)
  | None => None
  end.

(** [(major|minor|maj|min|m)?$]: the captured mode, [None] when the group
    took no part in the match. *)
Definition modeGroup (s : jsstring) : option (option jsstring) :=
  orElse (modeAlternative "major" s)
    (orElse (modeAlternative "minor" s)
       (orElse (modeAlternative "maj" s)
          (orElse (modeAlternative "min" s)
             (orElse (modeAlternative "m" s)
                (atEnd s None))))).

(** [\s*] and the rest of the pattern. *)
Fixpoint spaces (s : jsstring) : option (option jsstring) :=
  match s with
  | c :: r => if isWhiteSpace c then orElse (spaces r) (modeGroup s) else modeGroup s
  | [] => modeGroup s
  end.

(** [normalized.match(keyPattern)]: the two groups of the match. *)
Definition keyPattern (s : jsstring) : option (jsstring * option jsstring) :=
  match s with
  | c :: r =>
      if isNoteLetter c then
        orElse
          match r with
          | a :: r' =>
              if isAccidental a then option_map (pair [c; a]) (spaces r')
              else None
          | [] => None
          end
          (option_map (pair [c]) (spaces r))
      else None
  | [] => None
  end.

(** The object [parseKey] returns; [None] is the [null] of [key] and [mode]
    and the [undefined] of [note] and [circlePosition]. *)
Record parsedKey := {
  key : option jsstring;
  note : option jsstring;
  mode : option jsstring;
  isValid : bool;
  circlePosition : option Z;
}.

Definition invalidKey : parsedKey :=
  {| key := None; note := None; mode := None; isValid := false;
     circlePosition := None |}.

Definition parseKey (keyString : value) : completion parsedKey :=
  if negb (truthy keyString) || is_string keyString "Unknown" then
    mret invalidKey
  else
    normalized ← call_trim "keyString" keyString;
    match keyPattern normalized with
    | None => mret invalidKey
    | Some (note, mode) =>
        let '(note, mode) :=
          match mode with
          | Some ((_ :: _) as mode) => (note, mode)
          | _ =>
              (if endsWith note (js "m") then removelast note else note,
               if endsWith note (js "m") then js "minor" else js "major")
          end in
        let mode := toLowerCase mode in
        let mode := if units_eqb mode (js "maj") then js "major" else mode in
        let mode :=
          if units_eqb mode (js "min") || units_eqb mode (js "m")
          then js "minor" else mode in
        let normalizedKey :=
          if units_eqb mode (js "minor") then note ++ js "m" else note in
        mret {| key := Some normalizedKey;
                note := Some note;
                mode := Some mode;
                isValid := true;
                circlePosition := property circleOfFifths normalizedKey |}
    end.

(** ** The key classifier *)

(** [a === b] on the string-or-nothing fields of a parsed key. *)
Definition field_eqb (a b : option jsstring) : bool :=
  match a, b with
  | Some s, Some t => units_eqb s t
  | None, None => true
  | _, _ => false
  end.

Definition relativePairs : list (jsstring * jsstring) :=
  map (fun e => (js (fst e), js (snd e)))
    [ ("C", "Am"); ("G", "Em"); ("D", "Bm"); ("A", "F#m"); ("E", "C#m");
      ("B", "G#m"); ("F#", "D#m"); ("Gb", "Ebm"); ("C#", "A#m");
      ("Db", "Bbm"); ("Ab", "Fm"); ("Eb", "Cm"); ("Bb", "Gm"); ("F", "Dm") ].

Definition areRelativeKeys (parsed1 parsed2 : parsedKey) : bool :=
  existsb
    (fun '(major, minor) =>
       (field_eqb (key parsed1) (Some major) && field_eqb (key parsed2) (Some minor))
       || (field_eqb (key parsed1) (Some minor) && field_eqb (key parsed2) (Some major)))
    relativePairs.

Definition areParallelKeys (parsed1 parsed2 : parsedKey) : bool :=
  field_eqb (note parsed1) (note parsed2)
  && negb (field_eqb (mode parsed1) (mode parsed2)).

Definition calculateCircleDistance (pos1 pos2 : Z) : Z :=
  let distance := Z.abs (pos1 - pos2) in
  Z.min distance (12 - distance).

Definition calculateKeyCompatibility (key1 key2 : value) : completion compat :=
  parsed1 ← parseKey key1;
  parsed2 ← parseKey key2;
  mret
    (if negb (isValid parsed1) || negb (isValid parsed2) then
       {| compatibility := "unknown"; score := 0; reason := "Invalid key data" |}
     else if field_eqb (key parsed1) (key parsed2) then
       {| compatibility := "perfect"; score := 100; reason := "Same key" |}
     else if areRelativeKeys parsed1 parsed2 then
       {| compatibility := "excellent"; score := 95;
          reason := "Relative major/minor keys" |}
     else if areParallelKeys parsed1 parsed2 then
       {| compatibility := "very-good"; score := 85;
          reason := "Parallel major/minor keys" |}
     else
       let poor :=
         {| compatibility := "poor"; score := 20;
            reason := "Keys are not harmonically related" |} in
       match circlePosition parsed1, circlePosition parsed2 with
       | Some pos1, Some pos2 =>
           let distance := calculateCircleDistance pos1 pos2 in
           if distance =? 1 then
             {| compatibility := "good"; score := 80;
                reason := "Adjacent keys in circle of fifths" |}
           else if distance =? 2 then
             {| compatibility := "fair"; score := 60;
                reason := "Two steps apart in circle of fifths" |}
           else if distance =? 3 then
             {| compatibility := "acceptable"; score := 40;
                reason := "Three steps apart in circle of fifths" |}
           else poor
       | _, _ => poor
       end).

(** ** The tempo classifier *)

Definition calculateBpmCompatibility (bpm1 bpm2 : value) : completion compat :=
  num1 ← parseInt bpm1;
  num2 ← parseInt bpm2;
  mret
    (if isNaN num1 || isNaN num2 then
       {| compatibility := "unknown"; score := 0; reason := "Invalid BPM data" |}
     else
       let difference := Math_abs (number_sub num1 num2) in
       if number_eqb difference (Int 0) then
         {| compatibility := "perfect"; score := 100; reason := "Exact BPM match" |}
       else
         let ratio1 := (toF num1 / toF num2)%float in
         let ratio2 := (toF num2 / toF num1)%float in
         if (abs (ratio1 - 2) <? 0.1)%float || (abs (ratio2 - 2) <? 0.1)%float then
           {| compatibility := "excellent"; score := 90;
              reason := "Half/double BPM relationship" |}
         else if (abs (ratio1 - 1.5) <? 0.1)%float || (abs (ratio2 - 1.5) <? 0.1)%float then
           {| compatibility := "good"; score := 75; reason := "3/2 BPM relationship" |}
         else if number_leb difference (Int 5) then
           {| compatibility := "excellent"; score := 95;
              reason := "Within 5 BPM (" ++ Number_toString difference ++ " BPM difference)" |}
         else if number_leb difference (Int 10) then
           {| compatibility := "good"; score := 80;
              reason := "Within 10 BPM (" ++ Number_toString difference ++ " BPM difference)" |}
         else if number_leb difference (Int 20) then
           {| compatibility := "fair"; score := 60;
              reason := "Within 20 BPM (" ++ Number_toString difference ++ " BPM difference)" |}
         else if number_leb difference (Int 40) then
           {| compatibility := "acceptable"; score := 40;
              reason := Number_toString difference ++ " BPM difference" |}
         else
           {| compatibility := "poor"; score := 20;
              reason := "Large BPM difference (" ++ Number_toString difference ++ " BPM)" |}).

(** ** The overall scorer *)

(** The table of [getCompatibilityDescription]; the leading symbols are the
    ones of the source file. *)
Definition descriptions : gmap string string :=
  list_to_map
    [ ("excellent", "ðŸŽ¯ Perfect for mixing - seamless transition");
      ("very-good", "âœ… Great compatibility - smooth mixing");
      ("good", "ðŸ‘ Good match - will mix well together");
      ("fair", "âš–ï¸ Decent compatibility - requires some skill");
      ("acceptable", "âš ï¸ Challenging but possible to mix");
      ("poor", "âŒ Difficult to mix harmonically") ].

(** [descriptions[compatibility] || ...]; every description of the table is
    a non-empty string.  The lookup is the one of the own properties: the
    engine passes the six labels of the table only, none of which names a
    member that the object inherits from [Object.prototype]. *)
Definition getCompatibilityDescription (compatibility : string) : string :=
  default "â“ Unknown compatibility" (descriptions !! compatibility).

Definition getMixingAdvice (keyCompat bpmCompat : compat) : list string :=
  let advice := [] in
  let advice :=
    if 80 <=? score keyCompat then
      advice ++ ["ðŸŽ¹ Keys mix naturally - no pitch adjustment needed"]
    else if 60 <=? score keyCompat then
      advice ++ ["ðŸŽ¹ Keys are related - consider key-lock or harmonic mixing"]
    else
      advice ++ ["ðŸŽ¹ Use camelot wheel or key-lock for best results"] in
  let advice :=
    if 90 <=? score bpmCompat then
      advice ++ ["ðŸ¥ BPMs are perfectly matched for mixing"]
    else if 70 <=? score bpmCompat then
      advice ++ ["ðŸ¥ BPMs are close - minimal tempo adjustment needed"]
    else if includes (reason bpmCompat) "double" then
      advice ++ ["ðŸ¥ Half/double BPM - perfect for creative transitions"]
    else
      advice ++ ["ðŸ¥ Use tempo sync or beatmatching for smooth transition"] in
  advice.

(** The [{ key, bpm }] object [calculateOverallCompatibility] reads. *)
Record track := {
  t_key : value;
  t_bpm : value;
}.

Definition calculateOverallCompatibility (track1 track2 : track) : completion verdict :=
  keyCompatibility ← calculateKeyCompatibility (t_key track1) (t_key track2);
  bpmCompatibility ← calculateBpmCompatibility (t_bpm track1) (t_bpm track2);
  let overallScore :=
    (toF (Int (score keyCompatibility)) * 0.6
     + toF (Int (score bpmCompatibility)) * 0.4)%float in
  let overallCompatibility :=
    if (90 <=? overallScore)%float then "excellent"
    else if (75 <=? overallScore)%float then "very-good"
    else if (60 <=? overallScore)%float then "good"
    else if (40 <=? overallScore)%float then "fair"
    else if (25 <=? overallScore)%float then "acceptable"
    else "poor" in
  mret {| overall :=
            {| overall_compatibility := overallCompatibility;
               overall_score := Math_round overallScore;
               description := getCompatibilityDescription overallCompatibility |};
          v_key := keyCompatibility;
          v_bpm := bpmCompatibility;
          mixing_advice := getMixingAdvice keyCompatibility bpmCompatibility |}.

(** ** The candidate ranker *)

(** [track.key_info?.name]: [undefined] when [key_info] is missing or
    [null]; a primitive has no property of these names. *)
Definition key_info_field (track : gmap string value) (name : string) : value :=
  match track !! "key_info" with
  | Some (VObj key_info) => default VUndefined (key_info !! name)
  | _ => VUndefined
  end.

(** The object [{ ...track, compatibility_info }]: the own properties of
    the candidate, and the verdict, which is the property
    [compatibility_info] of the new object whatever the candidate held
    under that name. *)
Record ranked := {
  spread : gmap string value;
  compatibility_info : verdict;
}.

Definition ranked_score (a : ranked) : number :=
  overall_score (overall (compatibility_info a)).

(** The comparator handed to [sort]. *)
Definition by_score_descending (a b : ranked) : number :=
  number_sub (ranked_score b) (ranked_score a).

(** [Array.prototype.sort] with a comparator.  The sort is stable, and [a]
    goes after [b] when the comparator is positive on [(a, b)]; with a
    consistent comparator every stable sort returns the list that the
    insertion sort below returns. *)
Section Sort.
Context {A : Type} (comparator : A -> A -> number).

Fixpoint sort_insert (a : A) (sorted : list A) : list A :=
  match sorted with
  | [] => [a]
  | b :: rest =>
      if number_ltb (Int 0) (comparator a b) then b :: sort_insert a rest
      else a :: sorted
  end.

Definition Array_sort (l : list A) : list A := foldr sort_insert [] l.
End Sort.

(** The [for ... of] loop of [findCompatibleTracks]: [compatibleTracks] is
    the array the loop pushes to. *)
Fixpoint rank_loop (referenceTrack : gmap string value) (minScore : float)
    (candidateTracks : list (gmap string value))
    (compatibleTracks : list ranked) : completion (list ranked) :=
  match candidateTracks with
  | [] => mret compatibleTracks
  | track :: rest =>
      compatibility ←
        calculateOverallCompatibility
          {| t_key := key_info_field referenceTrack "key";
             t_bpm := key_info_field referenceTrack "bpm" |}
          {| t_key := key_info_field track "key";
             t_bpm := key_info_field track "bpm" |};
      let compatibleTracks :=
        if (minScore <=? toF (overall_score (overall compatibility)))%float then
          compatibleTracks
            ++ [ {| spread := track; compatibility_info := compatibility |} ]
        else compatibleTracks in
      rank_loop referenceTrack minScore rest compatibleTracks
  end.

(** [minScore] is [None] when the caller leaves the argument out. *)
Definition findCompatibleTracks (referenceTrack : gmap string value)
    (candidateTracks : list (gmap string value)) (minScore : option float)
    : completion (list ranked) :=
  let minScore := default 40%float minScore in
  compatibleTracks ← rank_loop referenceTrack minScore candidateTracks [];
  mret (Array_sort by_score_descending compatibleTracks).

(** ** The suggestion generator *)

Record suggestion := {
  s_key : jsstring;
  s_reason : string;
  s_score : Z;
}.

(** [(circlePosition + n) % 12]; [undefined + n] is NaN. *)
Definition plus_rem_12 (circlePosition : option Z) (n : Z) : number :=
  match circlePosition with
  | Some p => Int (Z.rem (p + n) 12)
  | None => NaN
  end.

(** [positions.includes(position)], by SameValueZero. *)
Definition Array_includes (positions : list number) (position : number) : bool :=
  existsb (fun a => number_eqb a position || (isNaN a && isNaN position)) positions.

Definition generateCompatibleSearchSuggestions (referenceKey referenceBpm : value)
    : completion (list suggestion) :=
  parsed ← parseKey referenceKey;
  if negb (isValid parsed) then mret []
  else
    let suggestions := [] in
    let suggestions :=
      fold_left
        (fun suggestions '(key_, position) =>
           if match circlePosition parsed with
              | Some p => position =? p
              | None => false
              end
              && negb (field_eqb (Some key_) (key parsed))
           then suggestions
                  ++ [ {| s_key := key_; s_reason := "Relative major/minor";
                          s_score := 95 |} ]
           else suggestions)
        circleOfFifths suggestions in
    let adjacentPositions :=
      [ plus_rem_12 (circlePosition parsed) 1;
        plus_rem_12 (circlePosition parsed) 11 ] in
    let suggestions :=
      fold_left
        (fun suggestions '(key_, position) =>
           if Array_includes adjacentPositions (Int position)
           then suggestions
                  ++ [ {| s_key := key_; s_reason := "Adjacent in circle of fifths";
                          s_score := 80 |} ]
           else suggestions)
        circleOfFifths suggestions in
    mret (firstn 10 suggestions).

(** * Statements of the specification *)

(** ** The key grammar *)

(** The mode tokens of the key grammar; a token matches in any case. *)
Definition modeTokens : list jsstring :=
  map js ["major"; "minor"; "maj"; "min"; "m"].

Definition is_mode_token (tok : jsstring) : Prop :=
  In (toLowerCase tok) modeTokens.

(** The key grammar: a note letter, an optional accidental, then nothing or
    white space (possibly none) and a mode token. *)
Definition key_grammar (letter accidental : N -> bool) (s : jsstring) : Prop :=
  exists l acc rest,
    s = l :: acc ++ rest
    /\ letter l = true
    /\ (acc = [] \/ exists a, acc = [a] /\ accidental a = true)
    /\ (rest = []
        \/ exists ws tok,
             rest = ws ++ tok
             /\ Forall (fun c => isWhiteSpace c = true) ws
             /\ is_mode_token tok).

(** The grammar as the specification words it: an uppercase letter A-G and
    [#] or [b]. *)
Definition claimed_key_grammar : jsstring -> Prop :=
  key_grammar (fun c => N.leb 65 c && N.leb c 71)
              (fun c => N.eqb c 35 || N.eqb c 98).

(** The grammar of the pattern: the [i] flag reaches the note as well. *)
Definition pattern_key_grammar : jsstring -> Prop :=
  key_grammar isNoteLetter isAccidental.

(** The parse of the key with root [n], major or minor. *)
Definition parsed_of (n : jsstring) (minor : bool) : parsedKey :=
  let normalizedKey := if minor then n ++ js "m" else n in
  {| key := Some normalizedKey;
     note := Some n;
     mode := Some (js (if minor then "minor" else "major"));
     isValid := true;
     circlePosition := property circleOfFifths normalizedKey |}.

(** The roots the pattern can capture. *)
Definition is_root (n : jsstring) : Prop :=
  exists l acc,
    n = l :: acc /\ isNoteLetter l = true
    /\ (acc = [] \/ exists a, acc = [a] /\ isAccidental a = true).

(** The 56 roots. *)
Definition roots : list jsstring :=
  let letters := [65; 66; 67; 68; 69; 70; 71; 97; 98; 99; 100; 101; 102; 103]%N in
  map (fun l => [l]) letters
  ++ flat_map (fun l => map (fun a => [l; a]) [35; 98; 66]%N) letters.

(** ** The cascade of the key classifier *)

(** The object [{ compatibility, score, reason }]. *)
Definition result (label : string) (points : Z) (why : string) : compat :=
  {| compatibility := label; score := points; reason := why |}.

(** The pair is one of the 14 relative major/minor pairs, in either order. *)
Definition in_relative_table (p1 p2 : parsedKey) : Prop :=
  exists major minor,
    In (major, minor) relativePairs
    /\ ((key p1 = Some major /\ key p2 = Some minor)
        \/ (key p1 = Some minor /\ key p2 = Some major)).

(** [min(|p1-p2|, 12-|p1-p2|)] *)
Definition circular_distance (a b : Z) : Z :=
  Z.min (Z.abs (a - b)) (12 - Z.abs (a - b)).

(** The priority cascade of the key classifier.  Every rule carries the
    failure of the rules before it; [falls_to_poor] is the set of distances
    the last rule sends to "poor". *)
Section Cascade.
Variable falls_to_poor : Z -> Prop.

Inductive distance_tier : Z -> compat -> Prop :=
| tier_adjacent :
    distance_tier 1 (result "good" 80 "Adjacent keys in circle of fifths")
| tier_two_steps :
    distance_tier 2 (result "fair" 60 "Two steps apart in circle of fifths")
| tier_three_steps :
    distance_tier 3 (result "acceptable" 40 "Three steps apart in circle of fifths")
| tier_far d :
    falls_to_poor d ->
    distance_tier d (result "poor" 20 "Keys are not harmonically related").

Inductive cascade (p1 p2 : parsedKey) : compat -> Prop :=
| cascade_invalid :
    isValid p1 = false \/ isValid p2 = false ->
    cascade p1 p2 (result "unknown" 0 "Invalid key data")
| cascade_same :
    isValid p1 = true -> isValid p2 = true ->
    key p1 = key p2 ->
    cascade p1 p2 (result "perfect" 100 "Same key")
| cascade_relative :
    isValid p1 = true -> isValid p2 = true ->
    key p1 <> key p2 ->
    in_relative_table p1 p2 ->
    cascade p1 p2 (result "excellent" 95 "Relative major/minor keys")
| cascade_parallel :
    isValid p1 = true -> isValid p2 = true ->
    key p1 <> key p2 ->
    ~ in_relative_table p1 p2 ->
    note p1 = note p2 -> mode p1 <> mode p2 ->
    cascade p1 p2 (result "very-good" 85 "Parallel major/minor keys")
| cascade_distance a b r :
    isValid p1 = true -> isValid p2 = true ->
    key p1 <> key p2 ->
    ~ in_relative_table p1 p2 ->
    ~ (note p1 = note p2 /\ mode p1 <> mode p2) ->
    circlePosition p1 = Some a -> circlePosition p2 = Some b ->
    distance_tier (circular_distance a b) r ->
    cascade p1 p2 r
| cascade_undefined :
    isValid p1 = true -> isValid p2 = true ->
    key p1 <> key p2 ->
    ~ in_relative_table p1 p2 ->
    ~ (note p1 = note p2 /\ mode p1 <> mode p2) ->
    circlePosition p1 = None \/ circlePosition p2 = None ->
    cascade p1 p2 (result "poor" 20 "Keys are not harmonically related").
End Cascade.

(** The last rule as the specification words it, and as the code has it. *)
Definition claimed_far (d : Z) : Prop := 4 <= d.
Definition far_or_same_position (d : Z) : Prop := d = 0 \/ 4 <= d.

(** ** Scores and tiers *)

(** The result of the tempo classifier on the two parsed tempos. *)
Definition tempo_verdict (num1 num2 : number) : compat :=
  if isNaN num1 || isNaN num2 then
    {| compatibility := "unknown"; score := 0; reason := "Invalid BPM data" |}
  else
    let difference := Math_abs (number_sub num1 num2) in
    if number_eqb difference (Int 0) then
      {| compatibility := "perfect"; score := 100; reason := "Exact BPM match" |}
    else
      let ratio1 := (toF num1 / toF num2)%float in
      let ratio2 := (toF num2 / toF num1)%float in
      if (abs (ratio1 - 2) <? 0.1)%float || (abs (ratio2 - 2) <? 0.1)%float then
        {| compatibility := "excellent"; score := 90;
           reason := "Half/double BPM relationship" |}
      else if (abs (ratio1 - 1.5) <? 0.1)%float || (abs (ratio2 - 1.5) <? 0.1)%float then
        {| compatibility := "good"; score := 75; reason := "3/2 BPM relationship" |}
      else if number_leb difference (Int 5) then
        {| compatibility := "excellent"; score := 95;
           reason := "Within 5 BPM (" ++ Number_toString difference ++ " BPM difference)" |}
      else if number_leb difference (Int 10) then
        {| compatibility := "good"; score := 80;
           reason := "Within 10 BPM (" ++ Number_toString difference ++ " BPM difference)" |}
      else if number_leb difference (Int 20) then
        {| compatibility := "fair"; score := 60;
           reason := "Within 20 BPM (" ++ Number_toString difference ++ " BPM difference)" |}
      else if number_leb difference (Int 40) then
        {| compatibility := "acceptable"; score := 40;
           reason := Number_toString difference ++ " BPM difference" |}
      else
        {| compatibility := "poor"; score := 20;
           reason := "Large BPM difference (" ++ Number_toString difference ++ " BPM)" |}.

(** The scores the two classifiers can return. *)
Definition key_scores : list Z := [0; 100; 95; 85; 80; 60; 40; 20].
Definition bpm_scores : list Z := [0; 100; 90; 75; 95; 80; 60; 40; 20].

(** [|hi/lo - 2| < 0.1] on binary64 floats, as the code tests it. *)
Definition near_double (hi lo : Z) : bool :=
  (abs (toF (Int hi) / toF (Int lo) - 2) <? 0.1)%float.

(** The same test on exact quotients, for [lo > 0]. *)
Definition near_double_exact (hi lo : Z) : bool :=
  10 * Z.abs (hi - 2 * lo) <? lo.

(** The tempos of one to three digits. *)
Definition tempos : list Z := map Z.of_nat (seq 1 999).

(** The tier of a rounded overall score. *)
Definition tier_of_score (overallScore : number) : string :=
  if number_leb (Int 90) overallScore then "excellent"
  else if number_leb (Int 75) overallScore then "very-good"
  else if number_leb (Int 60) overallScore then "good"
  else if number_leb (Int 40) overallScore then "fair"
  else if number_leb (Int 25) overallScore then "acceptable"
  else "poor".

(** [keyScore * 0.6 + tempoScore * 0.4], on binary64 floats. *)
Definition weighted_score (keyScore tempoScore : Z) : float :=
  (toF (Int keyScore) * 0.6 + toF (Int tempoScore) * 0.4)%float.

(** ** Suggestions *)

(** The suggestions as the specification lists them: the table entries at
    the position of the reference with another identity, then the entries at
    the position one step up or down the circle; at most 10 in all. *)
Definition shares_position (parsed : parsedKey) (entry : jsstring * Z) : bool :=
  match circlePosition parsed with
  | Some p => (snd entry =? p) && negb (field_eqb (Some (fst entry)) (key parsed))
  | None => false
  end.

Definition is_adjacent (parsed : parsedKey) (entry : jsstring * Z) : bool :=
  match circlePosition parsed with
  | Some p => (snd entry =? (p + 1) mod 12) || (snd entry =? (p - 1) mod 12)
  | None => false
  end.

Definition suggest (why : string) (points : Z) (entry : jsstring * Z) : suggestion :=
  {| s_key := fst entry; s_reason := why; s_score := points |}.

Definition specified_suggestions (parsed : parsedKey) : list suggestion :=
  if isValid parsed then
    firstn 10
      (map (suggest "Relative major/minor" 95)
         (List.filter (shares_position parsed) circleOfFifths)
       ++ map (suggest "Adjacent in circle of fifths" 80)
            (List.filter (is_adjacent parsed) circleOfFifths))
  else [].

(** ** Ranking *)

(** A key [parseKey] takes without raising: a string, or a falsy value. *)
Definition key_accepted (v : value) : Prop :=
  match v with
  | VStr _ => True
  | _ => truthy v = false
  end.

Definition reads_key_safely (track : gmap string value) : Prop :=
  key_accepted (key_info_field track "key").

(** A tempo [parseInt] takes without raising: every value but an object
    with a [toString] of its own. *)
Definition tempo_accepted (v : value) : Prop :=
  match v with
  | VObj o => o !! "toString" = None
  | _ => True
  end.

Definition reads_tempo_safely (track : gmap string value) : Prop :=
  tempo_accepted (key_info_field track "bpm").

(** The ranker reads the key and the tempo of the track without raising. *)
Definition reads_safely (track : gmap string value) : Prop :=
  reads_key_safely track /\ reads_tempo_safely track.

(** The [{ key, bpm }] object the ranker builds from a track. *)
Definition track_of (t : gmap string value) : track :=
  {| t_key := key_info_field t "key"; t_bpm := key_info_field t "bpm" |}.

(** [a] is the candidate [candidate] with its verdict attached. *)
Definition decorates (referenceTrack candidate : gmap string value) (a : ranked) : Prop :=
  spread a = candidate
  /\ calculateOverallCompatibility (track_of referenceTrack) (track_of candidate)
     = Normal (compatibility_info a).

(** [overallScore >= minScore] *)
Definition meets (minScore : float) (a : ranked) : bool :=
  (minScore <=? toF (ranked_score a))%float.

(** [a] may stand before [b] in a list sorted by score, descending. *)
Definition descending (a b : ranked) : Prop :=
  number_leb (ranked_score b) (ranked_score a) = true.

(** The candidates of score [s]. *)
Definition scored (s : number) (a : ranked) : bool :=
  number_eqb (ranked_score a) s.

Definition integer_score (a : ranked) : Prop :=
  exists z, ranked_score a = Int z.

(** The track [{ key_info: { key, bpm } }]. *)
Definition example_track (k b : string) : gmap string value :=
  {[ "key_info" := VObj ({[ "key" := VStr (js k) ]} ∪ {[ "bpm" := VStr (js b) ]}) ]}.


(** * Further properties: definitions *)

(** The error a call of [trim] on a value without that method raises. *)
Definition trim_error : exn := TypeError "keyString.trim is not a function".

(** A key that makes [parseKey] raise: truthy and not a string. *)
Definition key_raises (v : value) : bool :=
  match v with
  | VStr _ => false
  | _ => truthy v
  end.

(** The error of a conversion to a string that finds no primitive. *)
Definition coercion_error : exn :=
  TypeError "Cannot convert object to primitive value".

(** A tempo that makes [parseInt] raise: an object with a [toString] of its
    own. *)
Definition tempo_raises (v : value) : bool :=
  match v with
  | VObj o => bool_decide (is_Some (o !! "toString"))
  | _ => false
  end.

Definition all_space (ws : jsstring) : Prop :=
  Forall (fun c => isWhiteSpace c = true) ws.

Definition perfect_key : compat := result "perfect" 100 "Same key".
Definition unknown_key : compat := result "unknown" 0 "Invalid key data".

(** The twelve positions of the circle. *)
Definition positions : list Z := map Z.of_nat (seq 0 12).

(** [|hi/lo - 1.5| < 0.1] on binary64 floats, as the code tests it, and on
    exact quotients, for [lo > 0]. *)
Definition near_three_halves (hi lo : Z) : bool :=
  (abs (toF (Int hi) / toF (Int lo) - 1.5) <? 0.1)%float.

Definition near_three_halves_exact (hi lo : Z) : bool :=
  5 * Z.abs (2 * hi - 3 * lo) <? lo.

(** The tempo classifier on two tempos, in exact arithmetic: equal tempos,
    then a ratio within 0.1 of 2, then a ratio within 0.1 of 3/2, then the
    tiers of the difference. *)
Definition tempo_result (x y : Z) : compat :=
  let d := Z.abs (x - y) in
  if d =? 0 then result "perfect" 100 "Exact BPM match"
  else if near_double_exact x y || near_double_exact y x then
    result "excellent" 90 "Half/double BPM relationship"
  else if near_three_halves_exact x y || near_three_halves_exact y x then
    result "good" 75 "3/2 BPM relationship"
  else if d <=? 5 then
    result "excellent" 95 ("Within 5 BPM (" ++ decimal d ++ " BPM difference)")
  else if d <=? 10 then
    result "good" 80 ("Within 10 BPM (" ++ decimal d ++ " BPM difference)")
  else if d <=? 20 then
    result "fair" 60 ("Within 20 BPM (" ++ decimal d ++ " BPM difference)")
  else if d <=? 40 then
    result "acceptable" 40 (decimal d ++ " BPM difference")
  else
    result "poor" 20 ("Large BPM difference (" ++ decimal d ++ " BPM)").

(** The text holds no letter [o]. *)
Definition free_of_o (s : string) : bool :=
  forallb (fun c => negb (Ascii.eqb c "o")) (list_ascii_of_string s).

(** The six tiers of an overall verdict. *)
Definition tiers : list string :=
  ["excellent"; "very-good"; "good"; "fair"; "acceptable"; "poor"].

(** The verdict of [calculateKeyCompatibility] on the two parsed keys. *)
Definition key_verdict (parsed1 parsed2 : parsedKey) : compat :=
  if negb (isValid parsed1) || negb (isValid parsed2) then unknown_key
  else if field_eqb (key parsed1) (key parsed2) then perfect_key
  else if areRelativeKeys parsed1 parsed2 then
    result "excellent" 95 "Relative major/minor keys"
  else if areParallelKeys parsed1 parsed2 then
    result "very-good" 85 "Parallel major/minor keys"
  else
    match circlePosition parsed1, circlePosition parsed2 with
    | Some pos1, Some pos2 =>
        let distance := calculateCircleDistance pos1 pos2 in
        if distance =? 1 then result "good" 80 "Adjacent keys in circle of fifths"
        else if distance =? 2 then
          result "fair" 60 "Two steps apart in circle of fifths"
        else if distance =? 3 then
          result "acceptable" 40 "Three steps apart in circle of fifths"
        else result "poor" 20 "Keys are not harmonically related"
    | _, _ => result "poor" 20 "Keys are not harmonically related"
    end.

(** The verdict of [calculateOverallCompatibility] on the results of the
    two classifiers. *)
Definition overall_verdict (keyCompatibility bpmCompatibility : compat) : verdict :=
  let overallScore :=
    weighted_score (score keyCompatibility) (score bpmCompatibility) in
  let overallCompatibility :=
    if (90 <=? overallScore)%float then "excellent"
    else if (75 <=? overallScore)%float then "very-good"
    else if (60 <=? overallScore)%float then "good"
    else if (40 <=? overallScore)%float then "fair"
    else if (25 <=? overallScore)%float then "acceptable"
    else "poor" in
  {| overall :=
       {| overall_compatibility := overallCompatibility;
          overall_score := Math_round overallScore;
          description := getCompatibilityDescription overallCompatibility |};
     v_key := keyCompatibility;
     v_bpm := bpmCompatibility;
     mixing_advice := getMixingAdvice keyCompatibility bpmCompatibility |}.

(** A track whose key, whose tempo, or one of whose two makes the engine
    raise. *)
Definition track_key_raises (t : gmap string value) : bool :=
  key_raises (key_info_field t "key").

Definition track_tempo_raises (t : gmap string value) : bool :=
  tempo_raises (key_info_field t "bpm").

Definition track_raises (t : gmap string value) : bool :=
  track_key_raises t || track_tempo_raises t.

(** The track has an object under [key_info]. *)
Definition has_key_info (t : gmap string value) : bool :=
  match t !! "key_info" with
  | Some (VObj _) => true
  | _ => false
  end.

(** The fallback of [getCompatibilityDescription]. *)
Definition unknown_description : string := "â“ Unknown compatibility".

(** The suggestions [generateCompatibleSearchSuggestions] builds from the
    parsed reference key. *)
Definition suggestions_of (parsed : parsedKey) : list suggestion :=
  if negb (isValid parsed) then []
  else
    let suggestions := [] in
    let suggestions :=
      fold_left
        (fun suggestions '(key_, position) =>
           if match circlePosition parsed with
              | Some p => position =? p
              | None => false
              end
              && negb (field_eqb (Some key_) (key parsed))
           then suggestions
                  ++ [ {| s_key := key_; s_reason := "Relative major/minor";
                          s_score := 95 |} ]
           else suggestions)
        circleOfFifths suggestions in
    let adjacentPositions :=
      [ plus_rem_12 (circlePosition parsed) 1;
        plus_rem_12 (circlePosition parsed) 11 ] in
    let suggestions :=
      fold_left
        (fun suggestions '(key_, position) =>
           if Array_includes adjacentPositions (Int position)
           then suggestions
                  ++ [ {| s_key := key_; s_reason := "Adjacent in circle of fifths";
                          s_score := 80 |} ]
           else suggestions)
        circleOfFifths suggestions in
    firstn 10 suggestions.

(** The suggestions before the cut to 10 entries. *)
Definition uncut_suggestions (parsed : parsedKey) : list suggestion :=
  map (suggest "Relative major/minor" 95)
    (List.filter (shares_position parsed) circleOfFifths)
  ++ map (suggest "Adjacent in circle of fifths" 80)
       (List.filter (is_adjacent parsed) circleOfFifths).

(** The parsed keys of the strings the pattern accepts. *)
Definition parsed_keys : list parsedKey :=
  flat_map (fun n => [parsed_of n false; parsed_of n true]) roots.

(** A suggested key is not the reference key, and is a key of the table
    that the parser reads back unchanged and valid. *)
Definition suggested_key_ok (parsed : parsedKey) (s : suggestion) : bool :=
  negb (field_eqb (Some (s_key s)) (key parsed))
  && match parseKey (VStr (s_key s)), property circleOfFifths (s_key s) with
     | Normal q, Some pos =>
         isValid q && field_eqb (key q) (Some (s_key s))
         && match circlePosition q with Some a => a =? pos | None => false end
     | _, _ => false
     end.

(** The three fields of a suggestion. *)
Definition fields (s : suggestion) : jsstring * string * Z :=
  (s_key s, s_reason s, s_score s).

Definition suggestions_ok (parsed : parsedKey) : bool :=
  let suggestions := suggestions_of parsed in
  let n := length suggestions in
  bool_decide (map fields suggestions = map fields (uncut_suggestions parsed)) &&
  match circlePosition parsed with
  | Some _ => Nat.leb 5 n && Nat.leb n 9
  | None => Nat.eqb n 0
  end
  && bool_decide (NoDup (map s_key suggestions))
  && forallb (suggested_key_ok parsed) suggestions.

(** The reference sits at one of the two positions of the table that hold
    two spellings of a major and of a minor key. *)
Definition at_enharmonic_position (parsed : parsedKey) : bool :=
  match circlePosition parsed with
  | Some p => (p =? 6) || (p =? 7)
  | None => false
  end.

(** The score of a suggestion is the score the key classifier gives the
    reference and the suggested key, or the suggestion is tagged 95 where
    the classifier says 20 and the reference is at an enharmonic position. *)
Definition suggestion_score_ok (parsed : parsedKey) (s : suggestion) : bool :=
  match parseKey (VStr (s_key s)) with
  | Normal q =>
      let classified := score (key_verdict parsed q) in
      (classified =? s_score s)
      || ((s_score s =? 95) && (classified =? 20) && at_enharmonic_position parsed)
  | Throw _ => false
  end.

(** The mode a mode token stands for: [true] for minor, min and m. *)
Definition token_is_minor (tok : jsstring) : bool :=
  let mode := toLowerCase tok in
  units_eqb mode (js "minor") || units_eqb mode (js "min") || units_eqb mode (js "m").

(** Two parallel keys: both valid, classified "very-good", and three steps
    apart where both have a position. *)
Definition parallel_ok (p1 p2 : parsedKey) : bool :=
  implb (areParallelKeys p1 p2)
    (isValid p1 && isValid p2
     && String.eqb (compatibility (key_verdict p1 p2)) "very-good"
     && (score (key_verdict p1 p2) =? 85)
     && String.eqb (reason (key_verdict p1 p2)) "Parallel major/minor keys"
     && match circlePosition p1, circlePosition p2 with
        | Some a, Some b => calculateCircleDistance a b =? 3
        | _, _ => true
        end).

(** * Proofs *)

(** Case analysis on [In x [a; b; ...]]. *)
Ltac each_member H :=
  repeat (destruct H as [H|H]; [subst|]); [..|destruct H].

(** ** The engine on the scenarios of its test suite *)

Example parseKey_C_Major :
  parseKey (VStr (js "C Major"))
  = Normal {| key := Some (js "C"); note := Some (js "C");
              mode := Some (js "major"); isValid := true;
              circlePosition := Some 0 |}.
Proof. reflexivity. Qed.

Example parseKey_Am :
  parseKey (VStr (js "Am"))
  = Normal {| key := Some (js "Am"); note := Some (js "A");
              mode := Some (js "minor"); isValid := true;
              circlePosition := Some 0 |}.
Proof. reflexivity. Qed.

Example parseKey_Bb_Minor :
  parseKey (VStr (js "Bb Minor")) = Normal (parsed_of (js "Bb") true).
Proof. reflexivity. Qed.

Example parseKey_padded :
  parseKey (VStr (js "  C  Major  ")) = Normal (parsed_of (js "C") false).
Proof. reflexivity. Qed.

Example parseKey_malformed :
  parseKey (VStr (js "InvalidKey123")) = Normal invalidKey.
Proof. reflexivity. Qed.

Example parseInt_samples :
  map (fun s => parseInt (VStr (js s)))
    ["120"; " 60"; "12abc"; "0x1F"; "-7"; "Unknown"; ""; "9007199254740993"]
  = map Normal
      [Int 120; Int 60; Int 12; Int 31; Int (-7); NaN; NaN; Int 9007199254740992].
Proof. reflexivity. Qed.

Example parseInt_values :
  map parseInt
    [ VNum (Int 128); VUndefined; VObj ∅;
      VObj {[ "toString" := VNum (Int 1) ]} ]
  = [ Normal (Int 128); Normal NaN; Normal NaN; Throw coercion_error ].
Proof. reflexivity. Qed.

Example Number_toString_samples :
  map Number_toString [Int 35; Int (-3); F (2 ^ 64); F (2 ^ 70); NaN]
  = ["35"; "-3"; "18446744073709552000"; "1.1805916207174113e+21"; "NaN"].
Proof. vm_compute. reflexivity. Qed.

Example key_relative :
  calculateKeyCompatibility (VStr (js "C Major")) (VStr (js "Am"))
  = Normal (result "excellent" 95 "Relative major/minor keys").
Proof. reflexivity. Qed.

Example key_parallel :
  calculateKeyCompatibility (VStr (js "C Major")) (VStr (js "Cm"))
  = Normal (result "very-good" 85 "Parallel major/minor keys").
Proof. reflexivity. Qed.

Example key_adjacent :
  calculateKeyCompatibility (VStr (js "C Major")) (VStr (js "F Major"))
  = Normal (result "good" 80 "Adjacent keys in circle of fifths").
Proof. reflexivity. Qed.

Example key_three_steps :
  calculateKeyCompatibility (VStr (js "C Major")) (VStr (js "A Major"))
  = Normal (result "acceptable" 40 "Three steps apart in circle of fifths").
Proof. reflexivity. Qed.

Example key_unrelated :
  calculateKeyCompatibility (VStr (js "C Major")) (VStr (js "F# Major"))
  = Normal (result "poor" 20 "Keys are not harmonically related").
Proof. reflexivity. Qed.

Example key_unknown :
  calculateKeyCompatibility (VStr (js "Unknown")) (VStr (js "C Major"))
  = Normal (result "unknown" 0 "Invalid key data").
Proof. reflexivity. Qed.

Example bpm_three_halves :
  calculateBpmCompatibility (VStr (js "120")) (VStr (js "80"))
  = Normal (result "good" 75 "3/2 BPM relationship").
Proof. reflexivity. Qed.

Example bpm_within_5 :
  calculateBpmCompatibility (VStr (js "120")) (VStr (js "123"))
  = Normal (result "excellent" 95 "Within 5 BPM (3 BPM difference)").
Proof. reflexivity. Qed.

Example bpm_within_40 :
  calculateBpmCompatibility (VStr (js "120")) (VStr (js "155"))
  = Normal (result "acceptable" 40 "35 BPM difference").
Proof. reflexivity. Qed.

Example bpm_unknown :
  calculateBpmCompatibility (VStr (js "abc")) (VStr (js "120"))
  = Normal (result "unknown" 0 "Invalid BPM data").
Proof. reflexivity. Qed.

Example overall_perfect :
  overall
  <$> calculateOverallCompatibility
        {| t_key := VStr (js "C Major"); t_bpm := VStr (js "120") |}
        {| t_key := VStr (js "C Major"); t_bpm := VStr (js "120") |}
  = Normal {| overall_compatibility := "excellent"; overall_score := Int 100;
              description := getCompatibilityDescription "excellent" |}.
Proof. reflexivity. Qed.

Example suggestions_for_C_Major :
  map s_key
  <$> generateCompatibleSearchSuggestions (VStr (js "C Major")) (VStr (js "120"))
  = Normal (map js ["Am"; "G"; "F"; "Em"; "Dm"]).
Proof. reflexivity. Qed.

(** ** Strings: basic facts *)

Lemma units_eqb_eq s t : units_eqb s t = true <-> s = t.
Proof.
  revert t. induction s as [|c s IH]; intros [|d t]; simpl; split;
    try congruence; try reflexivity.
  - intros [Hc Hs]%andb_true_iff. apply N.eqb_eq in Hc. apply IH in Hs.
    congruence.
  - intros [= -> ->]. rewrite N.eqb_refl. simpl. now apply IH.
Qed.

Lemma units_eqb_refl s : units_eqb s s = true.
Proof. now apply units_eqb_eq. Qed.

Lemma units_eqb_neq s t : units_eqb s t = false <-> s <> t.
Proof.
  split.
  - intros H E. apply units_eqb_eq in E. congruence.
  - intros H. destruct (units_eqb s t) eqn:E; [|reflexivity].
    apply units_eqb_eq in E. contradiction.
Qed.

Lemma units_eqb_sym s t : units_eqb s t = units_eqb t s.
Proof.
  destruct (units_eqb s t) eqn:E; symmetry.
  - apply units_eqb_eq in E. subst. apply units_eqb_refl.
  - apply units_eqb_neq. apply units_eqb_neq in E. congruence.
Qed.

(** What [trimStart] returns does not start with white space. *)
Lemma trimStart_head s c r : trimStart s = c :: r -> isWhiteSpace c = false.
Proof.
  induction s as [|d s IH]; simpl; [discriminate|].
  destruct (isWhiteSpace d) eqn:E; [exact IH|]. intros [= <- _]. exact E.
Qed.

(** What [trim] returns does not end with white space. *)
Lemma trim_last s x c : trim s = x ++ [c] -> isWhiteSpace c = false.
Proof.
  unfold trim. intros H.
  apply (f_equal (@rev N)) in H. rewrite rev_involutive, rev_app_distr in H.
  simpl in H. now apply trimStart_head in H.
Qed.

Lemma trim_tail_spaces s x ws :
  trim s = x ++ ws -> Forall (fun c => isWhiteSpace c = true) ws -> ws = [].
Proof.
  intros H Hws. destruct ws as [|c ws] using rev_ind; [reflexivity|].
  rewrite app_assoc in H. apply trim_last in H.
  apply Forall_app in Hws as [_ Hc]. inversion Hc; subst. congruence.
Qed.

(** ** The key pattern *)

Lemma literal_i_spec tok s m r :
  literal_i tok s = Some (m, r) ->
  s = m ++ r /\ toLowerCase m = toLowerCase tok.
Proof.
  revert s m r. induction tok as [|p tok IH]; intros s m r; simpl.
  - intros [= <- <-]. now split.
  - destruct s as [|c s]; [discriminate|].
    destruct (N.eqb (lower_unit p) (lower_unit c)) eqn:E; [|discriminate].
    destruct (literal_i tok s) as [[m' r']|] eqn:L; [|discriminate].
    intros [= <- <-]. apply IH in L as [-> L]. apply N.eqb_eq in E.
    split; [reflexivity|]. simpl. now rewrite L, E.
Qed.

Lemma literal_i_complete tok t :
  toLowerCase t = toLowerCase tok -> literal_i tok t = Some (t, []).
Proof.
  revert t. induction tok as [|p tok IH]; intros [|c t]; simpl;
    try discriminate; try reflexivity.
  intros [= Hc Ht]. rewrite Hc, N.eqb_refl. now rewrite (IH _ Ht).
Qed.

Lemma toLowerCase_js_token tok :
  In tok modeTokens -> toLowerCase tok = tok.
Proof.
  intros H. repeat (destruct H as [<-|H]; [reflexivity|]). destruct H.
Qed.

Lemma modeAlternative_spec tok s g :
  In (js tok) modeTokens ->
  modeAlternative tok s = Some g -> g = Some s /\ is_mode_token s.
Proof.
  unfold modeAlternative, is_mode_token. intros Hin.
  destruct (literal_i (js tok) s) as [[m r]|] eqn:L; [|discriminate].
  apply literal_i_spec in L as [-> L].
  destruct r; simpl; [|discriminate]. intros [= <-].
  rewrite app_nil_r, L, (toLowerCase_js_token _ Hin). now split.
Qed.

Lemma modeAlternative_complete tok s :
  toLowerCase s = js tok -> In (js tok) modeTokens ->
  modeAlternative tok s = Some (Some s).
Proof.
  intros H Hin. unfold modeAlternative.
  rewrite (literal_i_complete (js tok) s); [reflexivity|].
  now rewrite (toLowerCase_js_token _ Hin).
Qed.

Lemma orElse_Some {A} (x y : option A) a :
  orElse x y = Some a -> x = Some a \/ y = Some a.
Proof. destruct x; simpl; auto. Qed.

Lemma orElse_is_Some {A} (x y : option A) :
  is_Some x \/ is_Some y -> is_Some (orElse x y).
Proof. destruct x; simpl; [eauto|]. now intros [[? [=]]|?]. Qed.

Lemma modeGroup_spec s g :
  modeGroup s = Some g ->
  (g = None /\ s = []) \/ (g = Some s /\ is_mode_token s).
Proof.
  unfold modeGroup. intros H.
  repeat (apply orElse_Some in H as [H|H];
          [right; revert H; apply modeAlternative_spec; vm_compute; tauto|]).
  destruct s; [|discriminate]. left. now inversion H.
Qed.

Lemma modeGroup_nil : modeGroup [] = Some None.
Proof. reflexivity. Qed.

Lemma modeGroup_complete s : is_mode_token s -> is_Some (modeGroup s).
Proof.
  unfold is_mode_token, modeTokens. simpl. unfold modeGroup.
  intros [H|[H|[H|[H|[H|[]]]]]]; symmetry in H.
  - rewrite (modeAlternative_complete "major" s H); [eexists; reflexivity|vm_compute; tauto].
  - apply orElse_is_Some. right.
    rewrite (modeAlternative_complete "minor" s H); [eexists; reflexivity|vm_compute; tauto].
  - do 2 (apply orElse_is_Some; right).
    rewrite (modeAlternative_complete "maj" s H); [eexists; reflexivity|vm_compute; tauto].
  - do 3 (apply orElse_is_Some; right).
    rewrite (modeAlternative_complete "min" s H); [eexists; reflexivity|vm_compute; tauto].
  - do 4 (apply orElse_is_Some; right).
    rewrite (modeAlternative_complete "m" s H); [eexists; reflexivity|vm_compute; tauto].
Qed.

(** A mode token is not empty and starts with [m] or [M]. *)
Lemma mode_token_head tok :
  is_mode_token tok -> exists c r, tok = c :: r /\ lower_unit c = 109%N.
Proof.
  unfold is_mode_token, modeTokens. destruct tok as [|c r]; simpl.
  - intros H. repeat (destruct H as [H|H]; [discriminate|]). destruct H.
  - intros H. exists c, r. split; [reflexivity|].
    repeat (destruct H as [H|H]; [now inversion H|]). destruct H.
Qed.

Lemma spaces_spec s g :
  spaces s = Some g ->
  exists ws t, s = ws ++ t
    /\ Forall (fun c => isWhiteSpace c = true) ws /\ modeGroup t = Some g.
Proof.
  induction s as [|c s IH]; simpl.
  - intros H. exists [], []. auto.
  - destruct (isWhiteSpace c) eqn:E.
    + intros [H|H]%orElse_Some.
      * destruct (IH H) as (ws & t & -> & Hws & Ht).
        exists (c :: ws), t. auto.
      * exists [], (c :: s). auto.
    + intros H. exists [], (c :: s). auto.
Qed.

Lemma spaces_complete ws t :
  Forall (fun c => isWhiteSpace c = true) ws ->
  is_Some (modeGroup t) -> is_Some (spaces (ws ++ t)).
Proof.
  intros Hws Ht. induction Hws as [|c ws Hc _ IH]; simpl.
  - destruct t as [|c t]; [exact Ht|]. simpl.
    destruct (isWhiteSpace c); [apply orElse_is_Some; now right|exact Ht].
  - rewrite Hc. apply orElse_is_Some. now left.
Qed.

Lemma keyPattern_spec s n g :
  keyPattern s = Some (n, g) ->
  exists ws t,
    s = n ++ ws ++ t /\ is_root n
    /\ Forall (fun c => isWhiteSpace c = true) ws /\ modeGroup t = Some g.
Proof.
  destruct s as [|l r]; simpl; [discriminate|].
  destruct (isNoteLetter l) eqn:Hl; [|discriminate].
  intros [H|H]%orElse_Some.
  - destruct r as [|a r]; [discriminate|].
    destruct (isAccidental a) eqn:Ha; [|discriminate].
    destruct (spaces r) as [g'|] eqn:Hs; [|discriminate].
    injection H as <- <-.
    apply spaces_spec in Hs as (ws & t & -> & Hws & Ht).
    exists ws, t. repeat split; auto.
    exists l, [a]. split; [reflexivity|]. split; [exact Hl|]. right. eauto.
  - destruct (spaces r) as [g'|] eqn:Hs; [|discriminate].
    injection H as <- <-.
    apply spaces_spec in Hs as (ws & t & -> & Hws & Ht).
    exists ws, t. repeat split; auto.
    exists l, []. split; [reflexivity|]. split; [exact Hl|]. now left.
Qed.

Lemma keyPattern_complete n ws t :
  is_root n -> Forall (fun c => isWhiteSpace c = true) ws ->
  is_Some (modeGroup t) -> is_Some (keyPattern (n ++ ws ++ t)).
Proof.
  intros (l & acc & -> & Hl & Hacc) Hws Ht.
  pose proof (spaces_complete ws t Hws Ht) as [g Hg].
  destruct Hacc as [->|(a & -> & Ha)]; simpl; rewrite Hl.
  - apply orElse_is_Some. right. rewrite Hg. eexists; reflexivity.
  - rewrite Ha, Hg. eexists; reflexivity.
Qed.

Lemma isNoteLetter_cases l :
  isNoteLetter l = true ->
  In l [65; 66; 67; 68; 69; 70; 71; 97; 98; 99; 100; 101; 102; 103]%N.
Proof.
  unfold isNoteLetter. intros H. simpl.
  apply orb_true_iff in H as [H|H]; apply andb_true_iff in H as [H1 H2];
    apply N.leb_le in H1, H2; lia.
Qed.

Lemma isAccidental_cases a :
  isAccidental a = true -> In a [35; 98; 66]%N.
Proof.
  unfold isAccidental. intros H. simpl.
  repeat (apply orb_true_iff in H as [H|H]); apply N.eqb_eq in H; auto.
Qed.

Lemma is_root_roots n : is_root n -> In n roots.
Proof.
  intros (l & acc & -> & Hl & Hacc).
  apply isNoteLetter_cases in Hl.
  destruct Hacc as [->|(a & -> & Ha)].
  - unfold roots. cbv zeta. apply in_or_app. left.
    exact (List.in_map (fun l => [l]) _ _ Hl).
  - apply isAccidental_cases in Ha.
    unfold roots. cbv zeta. apply in_or_app. right. apply in_flat_map.
    exists l. split; [exact Hl|]. exact (List.in_map (fun a => [l; a]) _ _ Ha).
Qed.

Lemma roots_no_m n : In n roots -> endsWith n (js "m") = false.
Proof.
  intros H. vm_compute in H.
  repeat (destruct H as [<-|H]; [reflexivity|]). destruct H.
Qed.

(** The steps of [parseKey] after the match, on the two groups. *)
Lemma parseKey_matched s n g :
  truthy (VStr s) = true -> is_string (VStr s) "Unknown" = false ->
  keyPattern (trim s) = Some (n, g) ->
  exists minor, parseKey (VStr s) = Normal (parsed_of n minor).
Proof.
  intros Ht Hu Hm. unfold parseKey. rewrite Ht, Hu. simpl. rewrite Hm.
  apply keyPattern_spec in Hm as (ws & t & _ & Hn%is_root_roots & _ & Hg).
  apply modeGroup_spec in Hg as [[-> _]|[-> Htok]].
  - exists false. rewrite (roots_no_m n Hn). reflexivity.
  - destruct (mode_token_head _ Htok) as (c & r & -> & _).
    unfold is_mode_token, modeTokens in Htok. simpl in Htok.
    cbv beta iota. unfold toLowerCase. simpl map.
    destruct Htok as [H|[H|[H|[H|[H|[]]]]]]; unfold toLowerCase in H;
      rewrite <- H;
      [exists false|exists true|exists false|exists true|exists true]; reflexivity.
Qed.

Lemma grammar_matches s :
  pattern_key_grammar s -> is_Some (keyPattern s).
Proof.
  intros (l & acc & rest & -> & Hl & Hacc & Hrest).
  assert (Hroot : is_root (l :: acc)) by (exists l, acc; auto).
  destruct Hrest as [->|(ws & tok & -> & Hws & Htok)].
  - apply (keyPattern_complete (l :: acc) [] [] Hroot); [constructor|].
    rewrite modeGroup_nil. eexists; reflexivity.
  - apply (keyPattern_complete (l :: acc) ws tok Hroot Hws).
    now apply modeGroup_complete.
Qed.

Lemma matches_trimmed_grammar s n g :
  keyPattern (trim s) = Some (n, g) -> pattern_key_grammar (trim s).
Proof.
  intros H.
  apply keyPattern_spec in H as (ws & t & E & (l & acc & -> & Hl & Hacc) & Hws & Hg).
  exists l, acc, (ws ++ t). split; [exact E|]. split; [exact Hl|].
  split; [exact Hacc|].
  apply modeGroup_spec in Hg as [[_ ->]|[_ Htok]].
  - left. rewrite app_nil_r in *.
    now rewrite (trim_tail_spaces s (l :: acc) ws E Hws).
  - right. exists ws, t. auto.
Qed.

(** C3, as amended: [parseKey] accepts exactly the strings whose trimmed
    text is a letter A-G in either case, optionally followed by [#], [b] or
    [B], optionally followed by white space (possibly none) and one of the
    mode tokens major, minor, maj, min, m in any case.  Every other string,
    the empty string and the sentinel "Unknown" among them, gives the
    invalid result, which has no circle position. *)
Theorem parseKey_valid_iff_pattern_grammar (s : jsstring) :
  exists p,
    parseKey (VStr s) = Normal p
    /\ (isValid p = true <-> pattern_key_grammar (trim s))
    /\ (~ pattern_key_grammar (trim s) -> isValid p = false /\ circlePosition p = None)
    /\ (s = [] \/ s = js "Unknown" -> isValid p = false /\ circlePosition p = None).
Proof.
  assert (Hinvalid : ~ pattern_key_grammar (trim s) ->
            (isValid invalidKey = true <-> pattern_key_grammar (trim s))
            /\ (~ pattern_key_grammar (trim s) ->
                isValid invalidKey = false /\ circlePosition invalidKey = None)
            /\ (s = [] \/ s = js "Unknown" ->
                isValid invalidKey = false /\ circlePosition invalidKey = None)).
  { intros Hg. split; [split; [discriminate|intros H; destruct (Hg H)]|].
    split; intros _; split; reflexivity. }
  destruct (units_eqb s []) eqn:He.
  { apply units_eqb_eq in He. subst s. exists invalidKey.
    split; [reflexivity|]. apply Hinvalid.
    intros (l & acc & rest & E & _). discriminate E. }
  destruct (units_eqb s (js "Unknown")) eqn:Hu.
  { apply units_eqb_eq in Hu. subst s. exists invalidKey.
    split; [reflexivity|]. apply Hinvalid.
    intros (l & acc & rest & E & Hl & _). vm_compute in E.
    injection E as <- _. discriminate Hl. }
  assert (Hne : ~ (s = [] \/ s = js "Unknown")).
  { intros [->| ->]; [discriminate He|]. now rewrite units_eqb_refl in Hu. }
  destruct (keyPattern (trim s)) as [[n g]|] eqn:Hm.
  - destruct (parseKey_matched s n g) as [minor Hp]; auto.
    { simpl. now rewrite He. }
    pose proof (matches_trimmed_grammar s n g Hm) as Hg.
    exists (parsed_of n minor). split; [exact Hp|].
    split; [split; auto|]. split; [intros H; destruct (H Hg)|].
    intros H; destruct (Hne H).
  - exists invalidKey. split.
    { unfold parseKey. simpl. rewrite He, Hu. simpl. now rewrite Hm. }
    apply Hinvalid. intros [x Hx]%grammar_matches. congruence.
Qed.

(** C3, as stated, fails: the key "c" is valid, and a lowercase letter is
    not in the grammar of the specification. *)
Lemma parseKey_lowercase_note_is_valid :
  exists p,
    parseKey (VStr (js "c")) = Normal p
    /\ isValid p = true
    /\ circlePosition p = None
    /\ ~ claimed_key_grammar (trim (js "c")).
Proof.
  eexists. split; [reflexivity|]. split; [reflexivity|]. split; [reflexivity|].
  intros (l & acc & rest & E & Hl & _). vm_compute in E.
  injection E as <- _. discriminate Hl.
Qed.

(** ** The key classifier: lemmas *)

Lemma field_eqb_eq a b : field_eqb a b = true <-> a = b.
Proof.
  destruct a, b; simpl; split; try congruence; try reflexivity.
  - intros ->%units_eqb_eq. reflexivity.
  - intros [= ->]. apply units_eqb_refl.
Qed.

Lemma field_eqb_neq a b : field_eqb a b = false <-> a <> b.
Proof.
  split.
  - intros H E%field_eqb_eq. congruence.
  - intros H. destruct (field_eqb a b) eqn:E; [|reflexivity].
    apply field_eqb_eq in E. contradiction.
Qed.

Lemma field_eqb_sym a b : field_eqb a b = field_eqb b a.
Proof.
  destruct a, b; simpl; try reflexivity. apply units_eqb_sym.
Qed.

Lemma areRelativeKeys_spec p1 p2 :
  areRelativeKeys p1 p2 = true <-> in_relative_table p1 p2.
Proof.
  unfold areRelativeKeys, in_relative_table. rewrite existsb_exists. split.
  - intros ([major minor] & Hin & H). exists major, minor. split; [exact Hin|].
    apply orb_true_iff in H as [H|H]; apply andb_true_iff in H as [H1 H2];
      apply field_eqb_eq in H1, H2; auto.
  - intros (major & minor & Hin & H). exists (major, minor). split; [exact Hin|].
    apply orb_true_iff.
    destruct H as [[H1 H2]|[H1 H2]]; [left|right]; apply andb_true_iff;
      split; now apply field_eqb_eq.
Qed.

Lemma areRelativeKeys_sym p1 p2 : areRelativeKeys p1 p2 = areRelativeKeys p2 p1.
Proof.
  unfold areRelativeKeys. induction relativePairs as [|[major minor] l IH];
    simpl; [reflexivity|].
  rewrite IH. f_equal. rewrite orb_comm. f_equal; apply andb_comm.
Qed.

Lemma areParallelKeys_spec p1 p2 :
  areParallelKeys p1 p2 = true <-> note p1 = note p2 /\ mode p1 <> mode p2.
Proof.
  unfold areParallelKeys. rewrite andb_true_iff, negb_true_iff.
  now rewrite field_eqb_eq, field_eqb_neq.
Qed.

Lemma areParallelKeys_sym p1 p2 : areParallelKeys p1 p2 = areParallelKeys p2 p1.
Proof.
  unfold areParallelKeys.
  now rewrite (field_eqb_sym (note p1)), (field_eqb_sym (mode p1)).
Qed.

Lemma calculateCircleDistance_sym a b :
  calculateCircleDistance a b = calculateCircleDistance b a.
Proof.
  unfold calculateCircleDistance. replace (b - a) with (- (a - b)) by lia.
  now rewrite Z.abs_opp.
Qed.

Lemma property_range name p :
  property circleOfFifths name = Some p -> 0 <= p <= 11.
Proof.
  unfold circleOfFifths. simpl.
  repeat match goal with
         | |- context [if ?b then _ else _] =>
             destruct b; [intros [= <-]; lia|]
         end.
  discriminate.
Qed.

Lemma parseKey_string_cases s :
  parseKey (VStr s) = Normal invalidKey
  \/ exists n minor, In n roots /\ parseKey (VStr s) = Normal (parsed_of n minor).
Proof.
  destruct (truthy (VStr s)) eqn:Ht;
    [|left; unfold parseKey; now rewrite Ht].
  destruct (is_string (VStr s) "Unknown") eqn:Hu;
    [left; unfold parseKey; now rewrite Ht, Hu|].
  destruct (keyPattern (trim s)) as [[n g]|] eqn:Hm.
  - right. destruct (parseKey_matched s n g Ht Hu Hm) as [minor Hp].
    exists n, minor. split; [|exact Hp].
    apply keyPattern_spec in Hm as (ws & t & _ & Hn & _). now apply is_root_roots.
  - left. unfold parseKey. rewrite Ht, Hu. simpl. now rewrite Hm.
Qed.

Lemma parseKey_valid_shape s p :
  parseKey (VStr s) = Normal p -> isValid p = true ->
  exists n minor, In n roots /\ p = parsed_of n minor.
Proof.
  intros Hp Hv.
  destruct (parseKey_string_cases s) as [H|(n & minor & Hn & H)];
    rewrite H in Hp; injection Hp as <-; [discriminate Hv|eauto].
Qed.

Lemma parsed_position_range n minor p :
  circlePosition (parsed_of n minor) = Some p -> 0 <= p <= 11.
Proof. apply property_range. Qed.

(** The classifier follows the cascade, for any two parsed keys whose
    positions, when defined, come from the table. *)
Lemma classified_by_cascade k1 k2 p1 p2 :
  parseKey k1 = Normal p1 -> parseKey k2 = Normal p2 ->
  (forall a, circlePosition p1 = Some a -> 0 <= a <= 11) ->
  (forall b, circlePosition p2 = Some b -> 0 <= b <= 11) ->
  exists r,
    calculateKeyCompatibility k1 k2 = Normal r
    /\ cascade far_or_same_position p1 p2 r.
Proof.
  intros H1 H2 R1 R2. unfold calculateKeyCompatibility. rewrite H1. simpl.
  rewrite H2. simpl. eexists. split; [reflexivity|].
  destruct (isValid p1) eqn:V1; simpl; [|apply cascade_invalid; now left].
  destruct (isValid p2) eqn:V2; simpl; [|apply cascade_invalid; now right].
  destruct (field_eqb (key p1) (key p2)) eqn:Ek.
  { apply cascade_same; auto. now apply field_eqb_eq. }
  apply field_eqb_neq in Ek.
  destruct (areRelativeKeys p1 p2) eqn:Er.
  { apply cascade_relative; auto. now apply areRelativeKeys_spec. }
  assert (Hr : ~ in_relative_table p1 p2)
    by (intros H%areRelativeKeys_spec; congruence).
  destruct (areParallelKeys p1 p2) eqn:Ep.
  { apply areParallelKeys_spec in Ep as [? ?]. now apply cascade_parallel. }
  assert (Hp : ~ (note p1 = note p2 /\ mode p1 <> mode p2))
    by (intros H%areParallelKeys_spec; congruence).
  destruct (circlePosition p1) as [a|] eqn:P1;
    [|apply cascade_undefined; auto].
  destruct (circlePosition p2) as [b|] eqn:P2;
    [|apply cascade_undefined; auto].
  apply (cascade_distance _ _ _ a b); auto.
  change (calculateCircleDistance a b) with (circular_distance a b).
  specialize (R1 a eq_refl). specialize (R2 b eq_refl).
  destruct (circular_distance a b =? 1) eqn:D1;
    [apply Z.eqb_eq in D1; rewrite D1; constructor|].
  destruct (circular_distance a b =? 2) eqn:D2;
    [apply Z.eqb_eq in D2; rewrite D2; constructor|].
  destruct (circular_distance a b =? 3) eqn:D3;
    [apply Z.eqb_eq in D3; rewrite D3; constructor|].
  apply tier_far. apply Z.eqb_neq in D1, D2, D3.
  unfold far_or_same_position, circular_distance in *. lia.
Qed.

Lemma distance_tier_functional far d r r' :
  (forall d, far d -> d <> 1 /\ d <> 2 /\ d <> 3) ->
  distance_tier far d r -> distance_tier far d r' -> r = r'.
Proof.
  intros Hfar H H'.
  destruct H; inversion H'; subst; try reflexivity;
    match goal with
    | F : far _ |- _ => apply Hfar in F; lia
    end.
Qed.

Lemma cascade_functional far p1 p2 r r' :
  (forall d, far d -> d <> 1 /\ d <> 2 /\ d <> 3) ->
  cascade far p1 p2 r -> cascade far p1 p2 r' -> r = r'.
Proof.
  intros Hfar H H'.
  destruct H; inversion H'; subst; try reflexivity;
    try (exfalso; intuition congruence).
  assert (a0 = a) by congruence. assert (b0 = b) by congruence. subst.
  eapply distance_tier_functional; eauto.
Qed.

Lemma far_or_same_position_disjoint d :
  far_or_same_position d -> d <> 1 /\ d <> 2 /\ d <> 3.
Proof. unfold far_or_same_position. lia. Qed.

Lemma parsed_string_range s p a :
  parseKey (VStr s) = Normal p -> circlePosition p = Some a -> 0 <= a <= 11.
Proof.
  intros Hp Ha.
  destruct (parseKey_string_cases s) as [H|(n & minor & _ & H)];
    rewrite H in Hp; injection Hp as <-; [discriminate Ha|].
  now apply parsed_position_range in Ha.
Qed.

(** C1, as amended: on every pair of key strings [calculateKeyCompatibility]
    returns the result of the priority cascade (1) a key that does not parse:
    "unknown", 0; (2) equal identities: "perfect", 100; (3) a pair of the
    relative table: "excellent", 95; (4) same root, different mode:
    "very-good", 85; (5) otherwise by circular distance: 1 "good" 80,
    2 "fair" 60, 3 "acceptable" 40, and distance 0, distance at least 4 or an
    undefined position "poor" 20.  Each rule applies only when the earlier
    ones fail, so the cascade has exactly one result. *)
Theorem calculateKeyCompatibility_priority_cascade (k1 k2 : jsstring) :
  exists p1 p2 r,
    parseKey (VStr k1) = Normal p1
    /\ parseKey (VStr k2) = Normal p2
    /\ calculateKeyCompatibility (VStr k1) (VStr k2) = Normal r
    /\ cascade far_or_same_position p1 p2 r
    /\ (forall r', cascade far_or_same_position p1 p2 r' -> r' = r).
Proof.
  assert (Hn : forall s, exists p, parseKey (VStr s) = Normal p).
  { intros s. destruct (parseKey_string_cases s) as [H|(n & minor & _ & H)]; eauto. }
  destruct (Hn k1) as [p1 H1]. destruct (Hn k2) as [p2 H2].
  destruct (classified_by_cascade (VStr k1) (VStr k2) p1 p2 H1 H2) as (r & Hr & Hc).
  { intros a. apply (parsed_string_range k1 p1 a H1). }
  { intros b. apply (parsed_string_range k2 p2 b H2). }
  exists p1, p2, r. repeat split; auto.
  intros r' Hc'.
  apply (cascade_functional far_or_same_position p1 p2); auto.
  apply far_or_same_position_disjoint.
Qed.

(** C1, as stated, fails: "F#" and "Gb" are valid, different, neither
    relative nor parallel, and at circular distance 0, so no rule of the
    cascade with "distance >= 4" as its last case gives a result, while the
    code returns "poor", 20. *)
Lemma enharmonic_pair_escapes_claimed_cascade :
  exists p1 p2,
    parseKey (VStr (js "F#")) = Normal p1
    /\ parseKey (VStr (js "Gb")) = Normal p2
    /\ calculateKeyCompatibility (VStr (js "F#")) (VStr (js "Gb"))
       = Normal (result "poor" 20 "Keys are not harmonically related")
    /\ forall r, ~ cascade claimed_far p1 p2 r.
Proof.
  eexists. eexists. split; [reflexivity|]. split; [reflexivity|].
  split; [reflexivity|].
  intros r H. inversion H; subst; simpl in *.
  - match goal with
    | U : _ \/ _ |- _ => destruct U; discriminate
    end.
  - discriminate.
  - match goal with
    | R : in_relative_table _ _ |- _ => apply areRelativeKeys_spec in R; discriminate R
    end.
  - discriminate.
  - match goal with
    | A : _ = Some a, B : _ = Some b |- _ =>
        vm_compute in A, B; injection A as <-; injection B as <-
    end.
    match goal with
    | T : distance_tier _ _ _ |- _ => inversion T; subst; try discriminate
    end.
    match goal with
    | F : claimed_far _ |- _ => vm_compute in F; now apply F
    end.
  - match goal with
    | U : _ \/ _ |- _ => destruct U; discriminate
    end.
Qed.

(** C7: for valid key strings the classifier is symmetric: both orders give
    the same label, score and reason. *)
Theorem calculateKeyCompatibility_symmetric (k1 k2 : jsstring) p1 p2 :
  parseKey (VStr k1) = Normal p1 -> isValid p1 = true ->
  parseKey (VStr k2) = Normal p2 -> isValid p2 = true ->
  exists r,
    calculateKeyCompatibility (VStr k1) (VStr k2) = Normal r
    /\ calculateKeyCompatibility (VStr k2) (VStr k1) = Normal r.
Proof.
  intros H1 V1 H2 V2. unfold calculateKeyCompatibility.
  rewrite H1, H2. simpl. eexists. split; [reflexivity|]. f_equal.
  rewrite V1, V2. simpl.
  rewrite (field_eqb_sym (key p2)), (areRelativeKeys_sym p2),
    (areParallelKeys_sym p2).
  destruct (circlePosition p1) as [a|], (circlePosition p2) as [b|];
    try reflexivity.
  now rewrite (calculateCircleDistance_sym b a).
Qed.

Lemma calculateKeyCompatibility_symmetric_witness :
  exists r,
    calculateKeyCompatibility (VStr (js "C Major")) (VStr (js "Am")) = Normal r
    /\ calculateKeyCompatibility (VStr (js "Am")) (VStr (js "C Major")) = Normal r.
Proof.
  eapply (calculateKeyCompatibility_symmetric (js "C Major") (js "Am"));
    reflexivity.
Defined.

Lemma parsed_of_reparses n minor :
  In n roots ->
  exists canonical,
    key (parsed_of n minor) = Some canonical
    /\ parseKey (VStr canonical) = Normal (parsed_of n minor).
Proof.
  intros H. eexists. split; [reflexivity|]. vm_compute in H.
  repeat (destruct H as [<-|H]; [destruct minor; reflexivity|]). destruct H.
Qed.

(** C8: parsing the canonical identity of a valid key gives the same parse,
    field by field. *)
Theorem parseKey_canonical_idempotent (k : jsstring) p :
  parseKey (VStr k) = Normal p -> isValid p = true ->
  exists canonical,
    key p = Some canonical /\ parseKey (VStr canonical) = Normal p.
Proof.
  intros Hp Hv.
  destruct (parseKey_valid_shape k p Hp Hv) as (n & minor & Hn & ->).
  now apply parsed_of_reparses.
Qed.

Lemma parseKey_canonical_idempotent_witness :
  exists canonical,
    key (parsed_of (js "Bb") true) = Some canonical
    /\ parseKey (VStr canonical) = Normal (parsed_of (js "Bb") true).
Proof.
  apply (parseKey_canonical_idempotent (js "  Bb  MINOR ")); reflexivity.
Defined.

(** The mode of a parsed key can be read off its identity: minor keys, and
    only they, end in [m]. *)
Lemma endsWith_snoc n c : endsWith (n ++ [c]) [c] = true.
Proof.
  unfold endsWith. rewrite length_app. simpl.
  replace (length n + 1 - 1)%nat with (length n) by lia.
  rewrite skipn_app, skipn_all, Nat.sub_diag. simpl.
  rewrite N.eqb_refl. simpl.
  destruct (length n + 1)%nat eqn:E; [lia|reflexivity].
Qed.

Lemma parsed_of_key_ends_m n minor k :
  In n roots -> key (parsed_of n minor) = Some k ->
  endsWith k (js "m") = minor.
Proof.
  intros Hn [= <-]. destruct minor.
  - apply endsWith_snoc.
  - now apply roots_no_m.
Qed.

Lemma relativePairs_endings major minor :
  In (major, minor) relativePairs ->
  endsWith major (js "m") = false /\ endsWith minor (js "m") = true.
Proof.
  intros H. vm_compute in H.
  repeat (destruct H as [[= <- <-]|H]; [split; reflexivity|]). destruct H.
Qed.

Lemma relative_keys_differ_in_mode n1 m1 n2 m2 :
  In n1 roots -> In n2 roots ->
  in_relative_table (parsed_of n1 m1) (parsed_of n2 m2) -> m1 <> m2.
Proof.
  intros H1 H2 (major & minor & Hin & H).
  apply relativePairs_endings in Hin as [Hmaj Hmin].
  destruct H as [[K1 K2]|[K1 K2]];
    apply (parsed_of_key_ends_m _ _ _ H1) in K1;
    apply (parsed_of_key_ends_m _ _ _ H2) in K2; congruence.
Qed.

(** C10: two valid keys at the same circle position and in the same mode
    but with different identities (enharmonic spellings) are classified
    "poor", 20: they are not a relative pair, not parallel, and their
    circular distance 0 matches no distance tier. *)
Theorem enharmonic_spellings_classified_poor (k1 k2 : jsstring) p1 p2 pos :
  parseKey (VStr k1) = Normal p1 -> isValid p1 = true ->
  parseKey (VStr k2) = Normal p2 -> isValid p2 = true ->
  circlePosition p1 = Some pos -> circlePosition p2 = Some pos ->
  mode p1 = mode p2 -> key p1 <> key p2 ->
  calculateKeyCompatibility (VStr k1) (VStr k2)
  = Normal (result "poor" 20 "Keys are not harmonically related")
  /\ ~ in_relative_table p1 p2
  /\ ~ (note p1 = note p2 /\ mode p1 <> mode p2)
  /\ circular_distance pos pos = 0.
Proof.
  intros H1 V1 H2 V2 P1 P2 Hmode Hkey.
  assert (Hrel : ~ in_relative_table p1 p2).
  { destruct (parseKey_valid_shape k1 p1 H1 V1) as (n1 & m1 & R1 & ->).
    destruct (parseKey_valid_shape k2 p2 H2 V2) as (n2 & m2 & R2 & ->).
    intros Hr. apply (relative_keys_differ_in_mode n1 m1 n2 m2 R1 R2 Hr).
    destruct m1, m2; try reflexivity; discriminate Hmode. }
  assert (Hd : circular_distance pos pos = 0).
  { unfold circular_distance. rewrite Z.sub_diag. reflexivity. }
  repeat split; auto; [|tauto].
  unfold calculateKeyCompatibility. rewrite H1, H2. simpl.
  rewrite V1, V2, P1, P2. simpl.
  apply field_eqb_neq in Hkey. rewrite Hkey.
  destruct (areRelativeKeys p1 p2) eqn:Er;
    [now apply areRelativeKeys_spec in Er|].
  unfold areParallelKeys. rewrite Hmode.
  replace (field_eqb (mode p2) (mode p2)) with true
    by (symmetry; now apply field_eqb_eq).
  rewrite andb_false_r.
  change (calculateCircleDistance pos pos) with (circular_distance pos pos).
  now rewrite Hd.
Qed.

Lemma enharmonic_spellings_classified_poor_witness :
  calculateKeyCompatibility (VStr (js "F# Major")) (VStr (js "Gb Major"))
  = Normal (result "poor" 20 "Keys are not harmonically related")
  /\ ~ in_relative_table (parsed_of (js "F#") false) (parsed_of (js "Gb") false)
  /\ ~ (note (parsed_of (js "F#") false) = note (parsed_of (js "Gb") false)
        /\ mode (parsed_of (js "F#") false) <> mode (parsed_of (js "Gb") false))
  /\ circular_distance 6 6 = 0.
Proof.
  apply (enharmonic_spellings_classified_poor (js "F# Major") (js "Gb Major"));
    try reflexivity.
  discriminate.
Defined.

(** ** Numbers: lemmas *)

(** [F] keeps an integer below 2^53 and never rounds a non-zero integer to
    zero or across zero. *)
Lemma F_cases z :
  F z = Int z
  \/ (z <> 0
      /\ exists v, 0 < v /\ (F z = Infinity (z <? 0) \/ F z = Int (Z.sgn z * v))).
Proof.
  unfold F.
  destruct (Z.log2 (Z.abs z) - 52 <=? 0) eqn:Hk; [now left|right].
  apply Z.leb_gt in Hk.
  assert (Ha : 0 < Z.abs z).
  { destruct (Z.eq_dec z 0) as [->|]; [simpl in Hk|]; lia. }
  split; [lia|].
  set (k := Z.log2 (Z.abs z) - 52) in *.
  assert (Hq : 1 <= Z.abs z / 2 ^ k).
  { apply Z.div_le_lower_bound; [apply Z.pow_pos_nonneg; lia|].
    rewrite Z.mul_1_r.
    transitivity (2 ^ Z.log2 (Z.abs z)); [|apply Z.log2_spec; lia].
    apply Z.pow_le_mono_r; lia. }
  assert (Hp : 0 < 2 ^ k) by (apply Z.pow_pos_nonneg; lia).
  match goal with
  | |- context [if 2 ^ 1024 <=? ?v then _ else _] =>
      exists v; split; [|destruct (2 ^ 1024 <=? v); auto]
  end.
  apply Z.mul_pos_pos; [|exact Hp].
  repeat match goal with
         | |- context [if ?b then _ else _] => destruct b
         end; lia.
Qed.

Lemma F_is_zero z : number_eqb (F z) (Int 0) = (z =? 0).
Proof.
  destruct (F_cases z) as [->|(Hz & v & Hv & [-> | ->])]; simpl.
  - reflexivity.
  - symmetry. now apply Z.eqb_neq.
  - destruct (Z.eqb_spec (Z.sgn z * v) 0), (Z.eqb_spec z 0);
      try reflexivity; try contradiction.
    destruct z; simpl in *; lia.
Qed.

Lemma F_is_positive z : number_ltb (Int 0) (F z) = (0 <? z).
Proof.
  assert (Hint : forall w, number_ltb (Int 0) (Int w) = (0 <? w)).
  { intros w. unfold number_ltb. cbn [number_leb number_eqb].
    destruct (Z.leb_spec 0 w), (Z.ltb_spec 0 w), (Z.eqb_spec 0 w);
      try reflexivity; lia. }
  destruct (F_cases z) as [->|(Hz & v & Hv & [-> | ->])].
  - apply Hint.
  - unfold number_ltb. cbn [number_leb number_eqb]. rewrite andb_true_r.
    destruct (Z.ltb_spec z 0), (Z.ltb_spec 0 z); try reflexivity; lia.
  - rewrite Hint.
    destruct (Z.ltb_spec 0 (Z.sgn z * v)), (Z.ltb_spec 0 z);
      try reflexivity; destruct z; simpl in *; lia.
Qed.

Lemma Math_abs_is_zero n :
  number_eqb (Math_abs n) (Int 0) = number_eqb n (Int 0).
Proof.
  destruct n as [| |z]; simpl; try reflexivity.
  destruct (Z.eqb_spec (Z.abs z) 0), (Z.eqb_spec z 0); try reflexivity; lia.
Qed.

(** ** The tempo classifier: lemmas *)

Lemma calculateBpmCompatibility_eq bpm1 bpm2 :
  calculateBpmCompatibility bpm1 bpm2
  = (num1 ← parseInt bpm1; num2 ← parseInt bpm2;
     mret (tempo_verdict num1 num2)).
Proof. reflexivity. Qed.

Lemma calculateBpmCompatibility_parsed bpm1 bpm2 num1 num2 :
  parseInt bpm1 = Normal num1 -> parseInt bpm2 = Normal num2 ->
  calculateBpmCompatibility bpm1 bpm2 = Normal (tempo_verdict num1 num2).
Proof. intros H1 H2. now rewrite calculateBpmCompatibility_eq, H1, H2. Qed.

Lemma calculateBpmCompatibility_inv bpm1 bpm2 r :
  calculateBpmCompatibility bpm1 bpm2 = Normal r ->
  exists num1 num2,
    parseInt bpm1 = Normal num1 /\ parseInt bpm2 = Normal num2
    /\ r = tempo_verdict num1 num2.
Proof.
  rewrite calculateBpmCompatibility_eq.
  destruct (parseInt bpm1) as [num1|]; [|discriminate].
  destruct (parseInt bpm2) as [num2|]; [|discriminate].
  intros [= <-]. eauto.
Qed.

Lemma parseInt_string s : parseInt (VStr s) = Normal (parse_integer s).
Proof. reflexivity. Qed.

Lemma tempo_verdict_scores num1 num2 :
  In (score (tempo_verdict num1 num2)) bpm_scores.
Proof.
  unfold tempo_verdict, bpm_scores.
  repeat match goal with
         | |- context [if ?b then _ else _] => destruct b
         end; simpl; tauto.
Qed.

Lemma calculateBpmCompatibility_scores bpm1 bpm2 r :
  calculateBpmCompatibility bpm1 bpm2 = Normal r -> In (score r) bpm_scores.
Proof.
  intros (num1 & num2 & _ & _ & ->)%calculateBpmCompatibility_inv.
  apply tempo_verdict_scores.
Qed.

Lemma calculateKeyCompatibility_scores key1 key2 r :
  calculateKeyCompatibility key1 key2 = Normal r -> In (score r) key_scores.
Proof.
  unfold calculateKeyCompatibility, key_scores.
  destruct (parseKey key1) as [p1|]; [|discriminate]. simpl.
  destruct (parseKey key2) as [p2|]; [|discriminate]. simpl.
  intros [= <-].
  repeat match goal with
         | |- context [if ?b then _ else _] => destruct b
         | |- context [match ?o with Some _ => _ | None => _ end] => destruct o
         end; simpl; tauto.
Qed.

Lemma in_tempos x : 1 <= x <= 999 -> In x tempos.
Proof.
  intros H. unfold tempos. rewrite <- (Z2Nat.id x) by lia.
  apply List.in_map. apply in_seq. lia.
Qed.

(** Below 1000 the binary64 test and the exact test agree on every pair. *)
Lemma near_double_exact_on_tempos :
  forallb
    (fun hi =>
       forallb (fun lo => Bool.eqb (near_double hi lo) (near_double_exact hi lo))
         tempos)
    tempos
  = true.
Proof. vm_compute. reflexivity. Qed.

Lemma near_double_agrees hi lo :
  1 <= hi <= 999 -> 1 <= lo <= 999 ->
  near_double hi lo = near_double_exact hi lo.
Proof.
  intros Hhi%in_tempos Hlo%in_tempos.
  pose proof near_double_exact_on_tempos as H.
  rewrite forallb_forall in H. specialize (H hi Hhi).
  rewrite forallb_forall in H. specialize (H lo Hlo).
  now apply eqb_prop in H.
Qed.

(** C4: for tempo strings that parse to different integers, when the
    quotient of the larger by the smaller is within 0.1 of 2, the result is
    "excellent", 90, "Half/double BPM relationship", whatever the absolute
    difference is: the ratio test comes before the difference tiers.  The
    quotient is the binary64 one the code forms; for tempos from 1 to 999
    the condition may also be read on exact quotients.  In particular "120"
    against "60" gives score 90, "excellent" and a reason with
    "Half/double". *)
Theorem half_double_before_difference_tiers :
  (forall (a b : jsstring) (x y : Z),
      parseInt (VStr a) = Normal (Int x) -> parseInt (VStr b) = Normal (Int y) ->
      x <> y ->
      (abs (toF (Int (Z.max x y)) / toF (Int (Z.min x y)) - 2) <? 0.1)%float = true ->
      calculateBpmCompatibility (VStr a) (VStr b)
      = Normal (result "excellent" 90 "Half/double BPM relationship"))
  /\ (forall (a b : jsstring) (x y : Z),
      parseInt (VStr a) = Normal (Int x) -> parseInt (VStr b) = Normal (Int y) ->
      1 <= x <= 999 -> 1 <= y <= 999 -> x <> y ->
      10 * Z.abs (Z.max x y - 2 * Z.min x y) < Z.min x y ->
      calculateBpmCompatibility (VStr a) (VStr b)
      = Normal (result "excellent" 90 "Half/double BPM relationship"))
  /\ calculateBpmCompatibility (VStr (js "120")) (VStr (js "60"))
     = Normal (result "excellent" 90 "Half/double BPM relationship")
  /\ includes "Half/double BPM relationship" "Half/double" = true.
Proof.
  assert (Hfloat : forall (a b : jsstring) (x y : Z),
      parseInt (VStr a) = Normal (Int x) -> parseInt (VStr b) = Normal (Int y) ->
      x <> y ->
      near_double (Z.max x y) (Z.min x y) = true ->
      calculateBpmCompatibility (VStr a) (VStr b)
      = Normal (result "excellent" 90 "Half/double BPM relationship")).
  { intros a b x y Ha Hb Hxy Hratio. unfold near_double in Hratio.
    rewrite (calculateBpmCompatibility_parsed _ _ _ _ Ha Hb). f_equal.
    unfold tempo_verdict.
    cbv beta zeta. change (isNaN (Int x) || isNaN (Int y)) with false.
    cbv iota.
    change (number_sub (Int x) (Int y)) with (F (x - y)).
    rewrite Math_abs_is_zero, F_is_zero.
    replace (x - y =? 0) with false by (symmetry; apply Z.eqb_neq; lia).
    destruct (Z.max_spec x y) as [[Hlt Hmax]|[Hle Hmax]]; rewrite Hmax in Hratio.
    - rewrite Z.min_l in Hratio by lia. rewrite Hratio, orb_true_r. reflexivity.
    - rewrite Z.min_r in Hratio by lia. rewrite Hratio. reflexivity. }
  split; [exact Hfloat|]. split; [|split; reflexivity].
  intros a b x y Ha Hb Hx Hy Hxy Hexact.
  apply (Hfloat a b x y Ha Hb Hxy).
  rewrite near_double_agrees by lia. now apply Z.ltb_lt.
Qed.

Lemma half_double_before_difference_tiers_witness :
  calculateBpmCompatibility (VStr (js "200")) (VStr (js " 0x65 BPM"))
  = Normal (result "excellent" 90 "Half/double BPM relationship").
Proof.
  apply (proj1 half_double_before_difference_tiers (js "200") (js " 0x65 BPM") 200 101);
    [reflexivity|reflexivity|lia|reflexivity].
Defined.

(** ** The overall scorer: lemmas *)

(** On the scores the two classifiers can return, the weighted sum is an
    integer between 0 and 100, exactly: rounding does not move it, and the
    thresholds read the same tier before and after rounding. *)
Lemma weighted_score_exact ks bs :
  In ks key_scores -> In bs bpm_scores ->
  exists z,
    Math_round (weighted_score ks bs) = Int z
    /\ 0 <= z <= 100
    /\ weighted_score ks bs = toF (Int z)
    /\ (0 <=? toF (Int z))%float = true.
Proof.
  intros Hk Hb. unfold key_scores, bpm_scores in *.
  each_member Hk; each_member Hb;
    (eexists; split; [vm_compute; reflexivity|];
     split; [lia|]; split; vm_compute; reflexivity).
Qed.

Lemma calculateOverallCompatibility_inv track1 track2 v :
  calculateOverallCompatibility track1 track2 = Normal v ->
  calculateKeyCompatibility (t_key track1) (t_key track2) = Normal (v_key v)
  /\ calculateBpmCompatibility (t_bpm track1) (t_bpm track2) = Normal (v_bpm v)
  /\ overall_score (overall v)
     = Math_round (weighted_score (score (v_key v)) (score (v_bpm v)))
  /\ mixing_advice v = getMixingAdvice (v_key v) (v_bpm v).
Proof.
  unfold calculateOverallCompatibility.
  destruct (calculateKeyCompatibility (t_key track1) (t_key track2)) as [kc|];
    [|discriminate].
  destruct (calculateBpmCompatibility (t_bpm track1) (t_bpm track2)) as [bc|];
    [|discriminate].
  simpl. intros [= <-]. simpl. auto.
Qed.

(** C2: the tier label of the overall verdict is the tier of the reported
    score, the rounded weighted sum round(keyScore * 0.6 + tempoScore * 0.4),
    under the thresholds 90, 75, 60, 40 and 25. *)
Theorem overall_label_is_tier_of_reported_score (track1 track2 : track) v :
  calculateOverallCompatibility track1 track2 = Normal v ->
  overall_score (overall v)
  = Math_round (toF (Int (score (v_key v))) * 0.6
                + toF (Int (score (v_bpm v))) * 0.4)%float
  /\ overall_compatibility (overall v) = tier_of_score (overall_score (overall v))
  /\ exists z, overall_score (overall v) = Int z /\ 0 <= z <= 100.
Proof.
  intros H. pose proof (calculateOverallCompatibility_inv _ _ _ H) as (Hk & Hb & Hs & _).
  split; [exact Hs|].
  pose proof (calculateKeyCompatibility_scores _ _ _ Hk) as Sk.
  pose proof (calculateBpmCompatibility_scores _ _ _ Hb) as Sb.
  unfold calculateOverallCompatibility in H. rewrite Hk, Hb in H. simpl in H.
  injection H as <-. cbn [overall overall_compatibility overall_score].
  revert Sk Sb.
  generalize (score (v_bpm v)).
  generalize (score (v_key v)). clear.
  intros ks bs Sk Sb. unfold key_scores, bpm_scores in *.
  each_member Sk; each_member Sb;
    (split; [vm_compute; reflexivity|eexists; split; [vm_compute; reflexivity|lia]]).
Qed.

Lemma overall_label_is_tier_of_reported_score_witness :
  exists v,
    calculateOverallCompatibility
      {| t_key := VStr (js "C Major"); t_bpm := VStr (js "120") |}
      {| t_key := VStr (js "G Major"); t_bpm := VStr (js "122") |} = Normal v
    /\ overall_score (overall v) = Int 86
    /\ overall_compatibility (overall v) = "very-good".
Proof.
  eexists. split; [reflexivity|].
  destruct (overall_label_is_tier_of_reported_score
              {| t_key := VStr (js "C Major"); t_bpm := VStr (js "120") |}
              {| t_key := VStr (js "G Major"); t_bpm := VStr (js "122") |}
              _ eq_refl) as (Hs & Hl & _).
  split; [rewrite Hs; reflexivity|rewrite Hl; reflexivity].
Defined.

Lemma parseKey_string_normal s : exists p, parseKey (VStr s) = Normal p.
Proof.
  destruct (parseKey_string_cases s) as [H|(n & minor & _ & H)]; eauto.
Qed.

Lemma getMixingAdvice_length keyCompat bpmCompat :
  length (getMixingAdvice keyCompat bpmCompat) = 2%nat.
Proof.
  unfold getMixingAdvice.
  repeat match goal with
         | |- context [if ?b then _ else _] => destruct b
         end; reflexivity.
Qed.

(** C6: on key strings and tempo strings of any content the overall scorer
    returns a verdict and raises nothing.  A key that does not parse gives
    the key result "unknown", 0, "Invalid key data"; a tempo that does not
    parse gives the tempo result "unknown", 0, "Invalid BPM data"; each of
    the two results is the one its own classifier returns, whatever the
    other side holds, and the rounded score and the two pieces of advice are
    produced all the same. *)
Theorem calculateOverallCompatibility_never_throws (k1 k2 b1 b2 : jsstring) :
  exists v p1 p2,
    calculateOverallCompatibility
      {| t_key := VStr k1; t_bpm := VStr b1 |}
      {| t_key := VStr k2; t_bpm := VStr b2 |} = Normal v
    /\ parseKey (VStr k1) = Normal p1
    /\ parseKey (VStr k2) = Normal p2
    /\ calculateKeyCompatibility (VStr k1) (VStr k2) = Normal (v_key v)
    /\ calculateBpmCompatibility (VStr b1) (VStr b2) = Normal (v_bpm v)
    /\ (isValid p1 = false \/ isValid p2 = false ->
        v_key v = result "unknown" 0 "Invalid key data")
    /\ (parseInt (VStr b1) = Normal NaN \/ parseInt (VStr b2) = Normal NaN ->
        v_bpm v = result "unknown" 0 "Invalid BPM data")
    /\ overall_score (overall v)
       = Math_round (toF (Int (score (v_key v))) * 0.6
                     + toF (Int (score (v_bpm v))) * 0.4)%float
    /\ length (mixing_advice v) = 2%nat.
Proof.
  destruct (parseKey_string_normal k1) as [p1 H1].
  destruct (parseKey_string_normal k2) as [p2 H2].
  assert (Hk : exists kc, calculateKeyCompatibility (VStr k1) (VStr k2) = Normal kc).
  { unfold calculateKeyCompatibility. rewrite H1, H2. simpl. eauto. }
  destruct Hk as [kc Hk].
  assert (Hv : exists v,
             calculateOverallCompatibility
               {| t_key := VStr k1; t_bpm := VStr b1 |}
               {| t_key := VStr k2; t_bpm := VStr b2 |} = Normal v).
  { unfold calculateOverallCompatibility. cbn [t_key t_bpm]. rewrite Hk.
    rewrite (calculateBpmCompatibility_parsed _ _ _ _
               (parseInt_string b1) (parseInt_string b2)).
    simpl. eauto. }
  destruct Hv as [v Hv].
  pose proof (calculateOverallCompatibility_inv _ _ _ Hv) as (Hk' & Hb & Hs & Ha).
  simpl in Hk', Hb.
  exists v, p1, p2. repeat split; auto.
  - intros Hinvalid.
    assert (E : Normal (v_key v) = Normal (result "unknown" 0 "Invalid key data")).
    { rewrite <- Hk'. unfold calculateKeyCompatibility. rewrite H1, H2. simpl.
      destruct Hinvalid as [-> | ->]; [reflexivity|].
      now rewrite orb_true_r. }
    now injection E.
  - intros Hnan.
    rewrite (calculateBpmCompatibility_parsed _ _ _ _
               (parseInt_string b1) (parseInt_string b2)) in Hb.
    injection Hb as <-. rewrite !parseInt_string in Hnan. unfold tempo_verdict.
    destruct Hnan as [[= ->] | [= ->]]; [reflexivity|]. simpl.
    now rewrite orb_true_r.
  - rewrite Ha. apply getMixingAdvice_length.
Qed.

(** A key that is neither a string nor falsy does make the scorer raise:
    the normal return above is a property of strings. *)
Example calculateOverallCompatibility_throws_on_boolean_key :
  calculateOverallCompatibility
    {| t_key := VBool true; t_bpm := VStr (js "120") |}
    {| t_key := VStr (js "C"); t_bpm := VStr (js "120") |}
  = Throw (TypeError "keyString.trim is not a function").
Proof. reflexivity. Qed.

(** ** The suggestion generator: lemmas *)

(** A [forEach] that pushes the entries passing a test is a filter. *)
Lemma forEach_push {K P B} (keep : K * P -> bool) (make : K * P -> B)
    (entries : list (K * P)) (pushed : list B) :
  fold_left
    (fun suggestions '(k, p) =>
       if keep (k, p) then suggestions ++ [make (k, p)] else suggestions)
    entries pushed
  = pushed ++ map make (List.filter keep entries).
Proof.
  revert pushed. induction entries as [|[k p] entries IH]; intros pushed; simpl.
  - now rewrite app_nil_r.
  - rewrite IH. destruct (keep (k, p)); simpl; [|reflexivity].
    now rewrite <- app_assoc.
Qed.

Lemma circleOfFifths_range k p : In (k, p) circleOfFifths -> 0 <= p <= 11.
Proof.
  intros H. vm_compute in H.
  repeat (destruct H as [[= <- <-]|H]; [lia|]). destruct H.
Qed.

Lemma adjacent_positions_spec (pos : option Z) (position : Z) :
  (forall p, pos = Some p -> 0 <= p <= 11) ->
  Array_includes [plus_rem_12 pos 1; plus_rem_12 pos 11] (Int position)
  = match pos with
    | Some p => (position =? (p + 1) mod 12) || (position =? (p - 1) mod 12)
    | None => false
    end.
Proof.
  intros Hr. destruct pos as [p|]; [|reflexivity].
  specialize (Hr p eq_refl). unfold Array_includes, plus_rem_12. simpl.
  rewrite ?andb_false_r, ?orb_false_r.
  rewrite (Z.eqb_sym _ position), (Z.eqb_sym _ position).
  rewrite !Z.rem_mod_nonneg by lia.
  replace ((p + 11) mod 12) with ((p - 1) mod 12); [reflexivity|].
  replace (p + 11) with (p - 1 + 1 * 12) by lia. now rewrite Z.mod_add.
Qed.

(** C9: for an invalid reference key the generator returns the empty list;
    for a valid one it returns, in table order, the entries sharing the
    reference's circle position under another identity (reason
    "Relative major/minor", score 95), then the entries at position +1 or
    -1 mod 12 (reason "Adjacent in circle of fifths", score 80), cut to 10
    entries. *)
Theorem suggestions_as_specified (referenceKey : jsstring) (referenceBpm : value) :
  exists parsed suggestions,
    parseKey (VStr referenceKey) = Normal parsed
    /\ generateCompatibleSearchSuggestions (VStr referenceKey) referenceBpm
       = Normal suggestions
    /\ suggestions = specified_suggestions parsed
    /\ (isValid parsed = false -> suggestions = [])
    /\ (length suggestions <= 10)%nat.
Proof.
  destruct (parseKey_string_normal referenceKey) as [parsed Hp].
  exists parsed, (specified_suggestions parsed).
  assert (Hlen : (length (specified_suggestions parsed) <= 10)%nat).
  { unfold specified_suggestions.
    destruct (isValid parsed); [exact (firstn_le_length 10 _)|exact (Nat.le_0_l 10)]. }
  unfold generateCompatibleSearchSuggestions, specified_suggestions in *.
  rewrite Hp. unfold mbind, completion_bind. cbv beta iota.
  destruct (isValid parsed) eqn:Hv; unfold negb; cbv iota;
    [|repeat split; auto].
  repeat split; auto; [|discriminate].
  do 2 f_equal.
  rewrite (forEach_push
             (fun e => Array_includes
                         [plus_rem_12 (circlePosition parsed) 1;
                          plus_rem_12 (circlePosition parsed) 11] (Int (snd e)))
             (suggest "Adjacent in circle of fifths" 80)).
  rewrite (forEach_push
             (fun e => match circlePosition parsed with
                       | Some p => snd e =? p
                       | None => false
                       end && negb (field_eqb (Some (fst e)) (key parsed)))
             (suggest "Relative major/minor" 95)).
  rewrite app_nil_l. f_equal; f_equal.
  - apply List.filter_ext. intros [k p]. unfold shares_position.
    cbn [fst snd]. now destruct (circlePosition parsed).
  - apply List.filter_ext. intros [k p]. unfold is_adjacent.
    apply adjacent_positions_spec. intros a.
    apply (parsed_string_range referenceKey parsed a Hp).
Qed.

(** ** The candidate ranker: lemmas *)

Lemma parseKey_accepted v : key_accepted v -> exists p, parseKey v = Normal p.
Proof.
  destruct v as [| |b|n|s|o]; intros H;
    try (exists invalidKey; unfold parseKey; now rewrite H).
  apply parseKey_string_normal.
Qed.

Lemma parseInt_accepted v : tempo_accepted v -> exists n, parseInt v = Normal n.
Proof.
  destruct v as [| |b|n|s|o]; intros H; try (eexists; reflexivity).
  unfold parseInt, ToString. cbn [tempo_accepted] in H. rewrite H.
  eexists; reflexivity.
Qed.

Lemma calculateOverallCompatibility_accepted track1 track2 :
  key_accepted (t_key track1) -> key_accepted (t_key track2) ->
  tempo_accepted (t_bpm track1) -> tempo_accepted (t_bpm track2) ->
  exists v, calculateOverallCompatibility track1 track2 = Normal v.
Proof.
  intros [p1 H1]%parseKey_accepted [p2 H2]%parseKey_accepted
         [n1 N1]%parseInt_accepted [n2 N2]%parseInt_accepted.
  unfold calculateOverallCompatibility, calculateKeyCompatibility.
  rewrite H1, H2, (calculateBpmCompatibility_parsed _ _ _ _ N1 N2).
  simpl. eauto.
Qed.

Lemma overall_score_integer track1 track2 v :
  calculateOverallCompatibility track1 track2 = Normal v ->
  exists z,
    overall_score (overall v) = Int z /\ 0 <= z <= 100
    /\ (0 <=? toF (Int z))%float = true.
Proof.
  intros H. apply calculateOverallCompatibility_inv in H as (Hk & Hb & Hs & _).
  destruct (weighted_score_exact (score (v_key v)) (score (v_bpm v)))
    as (z & Hz & Hr & _ & Hpos).
  - eapply calculateKeyCompatibility_scores; eauto.
  - eapply calculateBpmCompatibility_scores; eauto.
  - exists z. rewrite Hs. auto.
Qed.

Lemma decorates_integer_score referenceTrack candidate a :
  decorates referenceTrack candidate a ->
  exists z, ranked_score a = Int z /\ 0 <= z <= 100
            /\ (0 <=? toF (Int z))%float = true.
Proof. intros [_ H]. now apply overall_score_integer in H. Qed.

(** The loop pushes, in order, the decorated candidates that meet the
    threshold. *)
Lemma rank_loop_spec referenceTrack minScore candidateTracks :
  reads_safely referenceTrack ->
  Forall reads_safely candidateTracks ->
  exists attached,
    Forall2 (decorates referenceTrack) candidateTracks attached
    /\ forall compatibleTracks,
        rank_loop referenceTrack minScore candidateTracks compatibleTracks
        = Normal (compatibleTracks ++ List.filter (meets minScore) attached).
Proof.
  intros [Href Hreft] Hc.
  induction Hc as [|track rest [Ht Htt] _ (attached & Hall & IH)].
  - exists []. split; [constructor|]. intros acc. simpl. now rewrite app_nil_r.
  - destruct (calculateOverallCompatibility_accepted
                (track_of referenceTrack) (track_of track) Href Ht Hreft Htt)
      as [v Hv].
    exists ({| spread := track; compatibility_info := v |} :: attached).
    split; [constructor; [split; [reflexivity|exact Hv]|exact Hall]|].
    intros acc. cbn [rank_loop]. fold (track_of referenceTrack) (track_of track).
    rewrite Hv. unfold mbind, completion_bind. cbv beta iota zeta.
    rewrite IH. cbn [List.filter]. unfold meets at 2, ranked_score.
    cbn [compatibility_info].
    destruct (minScore <=? toF (overall_score (overall v)))%float;
      [now rewrite <- app_assoc|reflexivity].
Qed.

(** The comparator is positive exactly when [a] has the smaller score. *)
Lemma by_score_descending_positive a b x y :
  ranked_score a = Int x -> ranked_score b = Int y ->
  number_ltb (Int 0) (by_score_descending a b) = (x <? y).
Proof.
  intros Ha Hb. unfold by_score_descending. rewrite Ha, Hb.
  change (number_sub (Int y) (Int x)) with (F (y - x)).
  rewrite F_is_positive.
  destruct (Z.ltb_spec 0 (y - x)), (Z.ltb_spec x y); try reflexivity; lia.
Qed.

Lemma sort_insert_perm {A} (cmp : A -> A -> number) a l :
  Permutation (sort_insert cmp a l) (a :: l).
Proof.
  induction l as [|b l IH]; simpl; [reflexivity|].
  destruct (number_ltb (Int 0) (cmp a b)); [|reflexivity].
  rewrite IH. apply perm_swap.
Qed.

Lemma Array_sort_perm {A} (cmp : A -> A -> number) l :
  Permutation (Array_sort cmp l) l.
Proof.
  induction l as [|a l IH]; simpl; [reflexivity|].
  rewrite sort_insert_perm. now constructor.
Qed.

Lemma number_leb_trans a b c :
  number_leb a b = true -> number_leb b c = true -> number_leb a c = true.
Proof.
  destruct a as [|[]|x], b as [|[]|y], c as [|[]|z]; simpl; intros H1 H2;
    try discriminate; try reflexivity.
  apply Z.leb_le in H1, H2. apply Z.leb_le. lia.
Qed.

Lemma descending_trans a b c : descending a b -> descending b c -> descending a c.
Proof. unfold descending. intros H1 H2. exact (number_leb_trans _ _ _ H2 H1). Qed.

Lemma sort_insert_sorted a l :
  integer_score a -> Forall integer_score l ->
  Sorted descending l -> Sorted descending (sort_insert by_score_descending a l).
Proof.
  intros [x Hx] Hl Hs. induction Hs as [|b l Hs IH Hd]; simpl.
  - repeat constructor.
  - apply Forall_cons_iff in Hl as [[y Hy] Hl].
    rewrite (by_score_descending_positive a b x y Hx Hy).
    destruct (Z.ltb_spec x y) as [Hlt|Hge].
    + constructor; [now apply IH|].
      destruct l as [|c l]; simpl.
      * constructor. unfold descending. rewrite Hx, Hy. apply Z.leb_le. lia.
      * apply Forall_cons_iff in Hl as [[z Hz] _].
        rewrite (by_score_descending_positive a c x z Hx Hz).
        destruct (x <? z); constructor.
        -- now inversion Hd.
        -- unfold descending. rewrite Hx, Hy. apply Z.leb_le. lia.
    + constructor; [now constructor|].
      constructor. unfold descending. rewrite Hx, Hy. now apply Z.leb_le.
Qed.

Lemma Array_sort_integer_score l :
  Forall integer_score l -> Forall integer_score (Array_sort by_score_descending l).
Proof.
  intros H. eapply Permutation_Forall; [|exact H].
  symmetry. apply Array_sort_perm.
Qed.

Lemma Array_sort_sorted l :
  Forall integer_score l ->
  StronglySorted descending (Array_sort by_score_descending l).
Proof.
  intros H. apply Sorted_StronglySorted; [exact descending_trans|].
  induction H as [|a l Ha Hl IH]; simpl; [constructor|].
  apply sort_insert_sorted; auto. now apply Array_sort_integer_score.
Qed.

(** Insertion never passes an element of equal score: candidates of one
    score keep the order they had. *)
Lemma sort_insert_stable s a l :
  integer_score a -> Forall integer_score l ->
  List.filter (scored s) (sort_insert by_score_descending a l)
  = List.filter (scored s) (a :: l).
Proof.
  intros [x Hx] Hl. induction Hl as [|b l [y Hy] Hl IH]; [reflexivity|].
  cbn [sort_insert]. rewrite (by_score_descending_positive a b x y Hx Hy).
  destruct (Z.ltb_spec x y) as [Hlt|Hge]; [|reflexivity].
  cbn [List.filter] in *. rewrite IH. unfold scored. rewrite Hx, Hy.
  destruct s as [| |z]; simpl; try reflexivity.
  destruct (Z.eqb_spec x z), (Z.eqb_spec y z); try reflexivity; lia.
Qed.

Lemma Array_sort_stable s l :
  Forall integer_score l ->
  List.filter (scored s) (Array_sort by_score_descending l)
  = List.filter (scored s) l.
Proof.
  intros H. induction H as [|a l Ha Hl IH]; [reflexivity|].
  cbn [Array_sort foldr].
  change (foldr (sort_insert by_score_descending) [] l)
    with (Array_sort by_score_descending l).
  rewrite sort_insert_stable; auto using Array_sort_integer_score.
  cbn [List.filter]. now rewrite IH.
Qed.

(** C5: when no key makes the parser raise and no tempo makes the
    conversion of [parseInt] raise (as with the key and tempo strings the
    specification gives a track), [findCompatibleTracks] returns
    the candidates whose overall score is at least [minScore] (40 when the
    argument is left out), each as the candidate itself with its verdict
    attached, sorted by overall score in non-increasing order, candidates of
    equal score in their input order.  With [minScore] 0 every candidate is
    returned; with no candidate, or none that meets the threshold, the
    result is the empty list. *)
Theorem findCompatibleTracks_filters_and_ranks
    (referenceTrack : gmap string value)
    (candidateTracks : list (gmap string value)) (minScore : option float) :
  Forall reads_safely (referenceTrack :: candidateTracks) ->
  exists attached compatibleTracks,
    Forall2 (decorates referenceTrack) candidateTracks attached
    /\ findCompatibleTracks referenceTrack candidateTracks minScore
       = Normal compatibleTracks
    /\ Permutation compatibleTracks
         (List.filter (meets (default 40%float minScore)) attached)
    /\ StronglySorted descending compatibleTracks
    /\ (forall s,
          List.filter (scored s) compatibleTracks
          = List.filter (scored s)
              (List.filter (meets (default 40%float minScore)) attached))
    /\ (minScore = Some 0%float ->
        Permutation compatibleTracks attached
        /\ length compatibleTracks = length candidateTracks)
    /\ (List.filter (meets (default 40%float minScore)) attached = [] ->
        compatibleTracks = [])
    /\ (candidateTracks = [] -> compatibleTracks = []).
Proof.
  intros [Href Hc]%Forall_cons_iff.
  destruct (rank_loop_spec referenceTrack (default 40%float minScore)
              candidateTracks Href Hc) as (attached & Hall & Hloop).
  set (kept := List.filter (meets (default 40%float minScore)) attached).
  assert (Hint : Forall integer_score attached).
  { clear - Hall. induction Hall as [|t a ts l Hd _ IH]; constructor; auto.
    destruct (decorates_integer_score _ _ _ Hd) as (z & Hz & _). now exists z. }
  assert (Hkept : Forall integer_score kept).
  { apply List.Forall_forall. intros a [Ha _]%filter_In.
    revert a Ha. now apply List.Forall_forall. }
  assert (Hperm : Permutation (Array_sort by_score_descending kept) kept)
    by apply Array_sort_perm.
  exists attached, (Array_sort by_score_descending kept).
  split; [exact Hall|]. split.
  { unfold findCompatibleTracks. rewrite Hloop. reflexivity. }
  split; [exact Hperm|].
  split; [now apply Array_sort_sorted|].
  split; [intros s; now apply Array_sort_stable|].
  split; [|split].
  - intros ->. assert (Hk : kept = attached).
    { subst kept. simpl default. clear - Hall.
      induction Hall as [|t a ts l Hd _ IH]; [reflexivity|].
      cbn [List.filter]. rewrite IH.
      destruct (decorates_integer_score _ _ _ Hd) as (z & Hz & _ & Hpos).
      unfold meets. now rewrite Hz, Hpos. }
    rewrite Hk in *. split; [exact Hperm|].
    rewrite (Permutation_length Hperm). symmetry.
    clear - Hall. induction Hall; simpl; congruence.
  - intros Hk. fold kept in Hk. now rewrite Hk.
  - intros ->. inversion Hall; subst. reflexivity.
Qed.

Lemma findCompatibleTracks_filters_and_ranks_witness :
  exists compatibleTracks,
    findCompatibleTracks (example_track "C Major" "120")
      [ example_track "C Major" "120"; example_track "G Major" "122";
        example_track "F# Major" "180" ] (Some 60%float)
    = Normal compatibleTracks
    /\ map spread compatibleTracks
       = [ example_track "C Major" "120"; example_track "G Major" "122" ]
    /\ StronglySorted descending compatibleTracks.
Proof.
  destruct (findCompatibleTracks_filters_and_ranks
              (example_track "C Major" "120")
              [ example_track "C Major" "120"; example_track "G Major" "122";
                example_track "F# Major" "180" ] (Some 60%float))
    as (attached & compatibleTracks & _ & Hfind & _ & Hsorted & _).
  { repeat constructor; vm_compute; exact I. }
  exists compatibleTracks. split; [exact Hfind|]. split; [|exact Hsorted].
  assert (E : Normal compatibleTracks
              = findCompatibleTracks (example_track "C Major" "120")
                  [ example_track "C Major" "120"; example_track "G Major" "122";
                    example_track "F# Major" "180" ] (Some 60%float))
    by (symmetry; exact Hfind).
  vm_compute in E. injection E as ->. vm_compute. reflexivity.
Defined.

(** * Further properties *)

(** ** The key parser *)

Lemma parseKey_raises v :
  key_raises v = true -> parseKey v = Throw trim_error.
Proof.
  destruct v as [| |b|n|s|o]; simpl; try discriminate; intros H;
    unfold parseKey; simpl; rewrite ?H; reflexivity.
Qed.

Lemma parseKey_not_raises v :
  key_raises v = false -> exists p, parseKey v = Normal p.
Proof.
  intros H. apply parseKey_accepted.
  destruct v as [| |b|n|s|o]; simpl in *; auto.
Qed.

Lemma trimStart_all_space ws x : all_space ws -> trimStart (ws ++ x) = trimStart x.
Proof.
  intros H. induction H as [|c ws Hc _ IH]; [reflexivity|].
  simpl. now rewrite Hc.
Qed.

Lemma trimStart_app s x :
  trimStart (s ++ x)
  = match trimStart s with [] => trimStart x | _ => trimStart s ++ x end.
Proof.
  induction s as [|c s IH]; simpl; [reflexivity|].
  destruct (isWhiteSpace c); [exact IH|reflexivity].
Qed.

Lemma all_space_rev ws : all_space ws -> all_space (rev ws).
Proof. unfold all_space. apply Forall_rev. Qed.

Lemma trim_padding ws s ws' :
  all_space ws -> all_space ws' -> trim (ws ++ s ++ ws') = trim s.
Proof.
  intros H H'. unfold trim. rewrite (trimStart_all_space ws _ H).
  rewrite trimStart_app.
  destruct (trimStart s) as [|c t] eqn:E.
  - rewrite <- (app_nil_r ws'), (trimStart_all_space ws' [] H'). reflexivity.
  - rewrite rev_app_distr.
    now rewrite (trimStart_all_space (rev ws') _ (all_space_rev ws' H')).
Qed.

(** X1: White space around a key is ignored: the padded string has the parse
    of the string itself, the empty string and the sentinel included. *)
Theorem parseKey_ignores_padding ws s ws' :
  all_space ws -> all_space ws' ->
  parseKey (VStr (ws ++ s ++ ws')) = parseKey (VStr s).
Proof.
  intros H H'.
  assert (Hsame : forall x y,
            x <> [] -> x <> js "Unknown" -> y <> [] -> y <> js "Unknown" ->
            trim x = trim y -> parseKey (VStr x) = parseKey (VStr y)).
  { intros x y X1 X2 Y1 Y2 E. unfold parseKey. simpl.
    apply units_eqb_neq in X1, X2, Y1, Y2. rewrite X1, X2, Y1, Y2. simpl.
    now rewrite E. }
  assert (Hinv : forall x, keyPattern (trim x) = None ->
                           parseKey (VStr x) = Normal invalidKey).
  { intros x E. unfold parseKey.
    destruct (negb (truthy (VStr x)) || is_string (VStr x) "Unknown");
      [reflexivity|].
    simpl. now rewrite E. }
  pose proof (trim_padding ws s ws' H H') as Et.
  destruct (decide (s = [])) as [->|S1].
  { apply Hinv. now rewrite Et. }
  destruct (decide (s = (js "Unknown"))) as [->|S2].
  { rewrite (Hinv (js "Unknown")) by reflexivity. apply Hinv. now rewrite Et. }
  destruct (decide (ws ++ s ++ ws' = [])) as [P1|P1].
  { apply app_eq_nil in P1 as [_ [P1 _]%app_eq_nil]. contradiction. }
  destruct (decide (ws ++ s ++ ws' = (js "Unknown"))) as [P2|P2].
  { rewrite P2. rewrite (Hinv (js "Unknown")) by reflexivity.
    symmetry. apply Hinv. rewrite <- Et, P2. reflexivity. }
  now apply Hsame.
Qed.

Lemma parseKey_ignores_padding_witness :
  parseKey (VStr (js "  " ++ js "F# minor" ++ js " "))
  = parseKey (VStr (js "F# minor")).
Proof.
  apply parseKey_ignores_padding; repeat constructor.
Defined.

(** X2: What a parse holds.  An invalid parse holds nothing; a valid one holds
    a root of one or two code units, the mode "major" or "minor", the root
    followed by [m] exactly in minor as its identity, and the table entry
    of that identity, between 0 and 11, as its circle position. *)
Theorem parseKey_result_shape (s : jsstring) :
  exists p,
    parseKey (VStr s) = Normal p
    /\ (p = invalidKey
        \/ exists n minor,
             p = parsed_of n minor
             /\ (1 <= length n <= 2)%nat
             /\ note p = Some n
             /\ mode p = Some (js (if minor then "minor" else "major"))
             /\ key p = Some (n ++ if minor then js "m" else [])
             /\ circlePosition p
                = property circleOfFifths (n ++ if minor then js "m" else [])
             /\ forall pos, circlePosition p = Some pos -> 0 <= pos <= 11).
Proof.
  destruct (parseKey_string_cases s) as [H|(n & minor & Hn & H)].
  - exists invalidKey. auto.
  - exists (parsed_of n minor). split; [exact H|]. right.
    exists n, minor. split; [reflexivity|]. split.
    { clear H. vm_compute in Hn.
      repeat (destruct Hn as [<-|Hn]; [simpl; lia|]). destruct Hn. }
    split; [reflexivity|]. split; [reflexivity|].
    assert (E : (if minor then n ++ js "m" else n)
                = n ++ (if minor then js "m" else []))
      by (destruct minor; [reflexivity|now rewrite app_nil_r]).
    unfold parsed_of. cbn [key circlePosition]. rewrite E.
    split; [reflexivity|]. split; [reflexivity|].
    intros pos. apply property_range.
Qed.

(** ** The key parser on the strings of its grammar *)

Lemma lower_letter_not_space c :
  (97 <= lower_unit c <= 122)%N -> isWhiteSpace c = false.
Proof.
  unfold lower_unit. intros H.
  destruct (isWhiteSpace c) eqn:E; [exfalso|reflexivity].
  unfold isWhiteSpace in E.
  destruct (N.leb 65 c && N.leb c 90) eqn:U.
  - apply andb_true_iff in U as [U1 U2]. apply N.leb_le in U1, U2.
    repeat (apply orb_true_iff in E as [E|E]);
      repeat (apply andb_true_iff in E as [E ?]);
      repeat match goal with
             | H : N.leb _ _ = true |- _ => apply N.leb_le in H
             | H : N.eqb _ _ = true |- _ => apply N.eqb_eq in H
             end; lia.
  - repeat (apply orb_true_iff in E as [E|E]);
      repeat (apply andb_true_iff in E as [E ?]);
      repeat match goal with
             | H : N.leb _ _ = true |- _ => apply N.leb_le in H
             | H : N.eqb _ _ = true |- _ => apply N.eqb_eq in H
             end; lia.
Qed.

Lemma mode_token_cases tok :
  is_mode_token tok ->
  In (toLowerCase tok) modeTokens
  /\ (toLowerCase tok = js "major" \/ toLowerCase tok = js "minor"
      \/ toLowerCase tok = js "maj" \/ toLowerCase tok = js "min"
      \/ toLowerCase tok = js "m").
Proof.
  intros H. split; [exact H|].
  unfold is_mode_token, modeTokens in H. cbn [map In] in H.
  destruct H as [H|[H|[H|[H|[H|[]]]]]]; symmetry in H; auto 6.
Qed.

Lemma mode_token_letters tok :
  is_mode_token tok -> Forall (fun c => isWhiteSpace c = false) tok.
Proof.
  unfold is_mode_token. intros H.
  assert (L : Forall (fun x => (97 <= x <= 122)%N) (toLowerCase tok)).
  { apply mode_token_cases in H as [_ H].
    apply List.Forall_forall. intros x Hx.
    destruct H as [H|[H|[H|[H|H]]]]; rewrite H in Hx; vm_compute in Hx;
      each_member Hx; lia. }
  unfold toLowerCase in L. clear H.
  induction tok as [|c tok IH]; [constructor|].
  cbn [map] in L. apply Forall_cons_iff in L as [Hc L].
  constructor; [now apply lower_letter_not_space|now apply IH].
Qed.

Lemma trimStart_fixed c s : isWhiteSpace c = false -> trimStart (c :: s) = c :: s.
Proof. intros H. cbn [trimStart]. now rewrite H. Qed.

Lemma trim_fixed c s d :
  isWhiteSpace c = false -> isWhiteSpace d = false ->
  trim (c :: s ++ [d]) = c :: s ++ [d].
Proof.
  intros Hc Hd. unfold trim. rewrite (trimStart_fixed c _ Hc).
  change (c :: s ++ [d]) with ((c :: s) ++ [d]).
  rewrite rev_app_distr. cbn [rev app].
  rewrite (trimStart_fixed d _ Hd).
  change (d :: rev s ++ [c]) with ([d] ++ (rev s ++ [c])).
  rewrite rev_app_distr, rev_app_distr, rev_involutive. reflexivity.
Qed.

Lemma modeGroup_token tok : is_mode_token tok -> modeGroup tok = Some (Some tok).
Proof.
  intros H. destruct (modeGroup_complete tok H) as [g Hg].
  destruct (mode_token_head tok H) as (c & r & -> & _).
  rewrite Hg. apply modeGroup_spec in Hg as [[_ [=]]|[-> _]]. reflexivity.
Qed.

Lemma spaces_token ws tok :
  all_space ws -> is_mode_token tok -> spaces (ws ++ tok) = Some (Some tok).
Proof.
  intros Hws Htok. induction Hws as [|c ws Hc _ IH].
  - rewrite app_nil_l.
    destruct (mode_token_head tok Htok) as (c & r & E & _).
    pose proof (mode_token_letters tok Htok) as L. rewrite E in L.
    apply Forall_cons_iff in L as [Hc _].
    rewrite <- (modeGroup_token tok Htok). rewrite E.
    cbn [spaces]. now rewrite Hc.
  - cbn [app spaces]. rewrite Hc, IH. reflexivity.
Qed.

Lemma keyPattern_token n ws tok :
  is_root n -> all_space ws -> is_mode_token tok ->
  keyPattern (n ++ ws ++ tok) = Some (n, Some tok).
Proof.
  intros (l & acc & -> & Hl & Hacc) Hws Htok.
  pose proof (spaces_token ws tok Hws Htok) as Hs.
  destruct Hacc as [->|(a & -> & Ha)].
  - cbn [app keyPattern]. rewrite Hl, Hs.
    destruct (ws ++ tok) as [|a r] eqn:E; [reflexivity|].
    assert (Ha : isAccidental a = false).
    { destruct ws as [|w ws'].
      - rewrite app_nil_l in E.
        destruct (mode_token_head tok Htok) as (c & r' & E' & Hc).
        rewrite E' in E. injection E as <- _.
        unfold lower_unit in Hc. unfold isAccidental.
        destruct (N.leb 65 c && N.leb c 90) eqn:U.
        + assert (c = 77%N) by lia. now subst.
        + now subst.
      - injection E as <- _. apply Forall_cons_iff in Hws as [Hw _].
        unfold isAccidental.
        destruct (N.eqb w 35 || N.eqb w 98 || N.eqb w 66) eqn:A; [|reflexivity].
        repeat (apply orb_true_iff in A as [A|A]); apply N.eqb_eq in A; subst;
          discriminate Hw. }
    rewrite Ha. reflexivity.
  - cbn [app keyPattern]. rewrite Hl, Ha, Hs. reflexivity.
Qed.

(** X3: A root, white space (possibly none) and a mode token in any letter
    case parse to the key of that root and mode: maj stands for major, min
    and m for minor; the root alone is the major key.  So "Cmaj", "C MAJOR"
    and "C" give one result, as do "Am", "A min" and "a Minor" up to the case
    of the note. *)
Theorem parseKey_mode_aliases (n ws tok : jsstring) :
  is_root n -> all_space ws -> is_mode_token tok ->
  parseKey (VStr (n ++ ws ++ tok)) = Normal (parsed_of n (token_is_minor tok))
  /\ parseKey (VStr n) = Normal (parsed_of n false).
Proof.
  intros Hn Hws Htok. split.
  - pose proof (keyPattern_token n ws tok Hn Hws Htok) as Hk.
    destruct (mode_token_head tok Htok) as (c & r & E & _).
    pose proof (mode_token_letters tok Htok) as L.
    destruct Hn as (l & acc & -> & Hl & Hacc).
    assert (Hlw : isWhiteSpace l = false).
    { apply isNoteLetter_cases in Hl. each_member Hl; reflexivity. }
    assert (Hu : N.eqb l 85 = false).
    { apply isNoteLetter_cases in Hl. each_member Hl; reflexivity. }
    assert (Ht : trim ((l :: acc) ++ ws ++ tok) = (l :: acc) ++ ws ++ tok).
    { destruct (exists_last (l := tok)) as (tok' & d & Ed); [now rewrite E|].
      rewrite Ed in L. apply Forall_app in L as [_ L].
      apply Forall_cons_iff in L as [Hd _].
      rewrite Ed. cbn [app]. rewrite !app_assoc.
      rewrite <- (app_assoc acc ws tok').
      now apply trim_fixed. }
    unfold parseKey.
    change (truthy (VStr ((l :: acc) ++ ws ++ tok))) with true.
    change (is_string (VStr ((l :: acc) ++ ws ++ tok)) "Unknown")
      with (N.eqb l 85 && units_eqb (acc ++ ws ++ tok) (js "nknown")).
    rewrite Hu. cbn [negb orb andb call_trim].
    unfold mbind, completion_bind; cbv beta iota.
    rewrite Ht, Hk. rewrite E at 1.
    unfold token_is_minor. cbv zeta.
    apply mode_token_cases in Htok as [_ Htok].
    destruct Htok as [H|[H|[H|[H|H]]]]; rewrite H; reflexivity.
  - apply is_root_roots in Hn. unfold roots in Hn. vm_compute in Hn.
    each_member Hn; reflexivity.
Qed.

Lemma parseKey_mode_aliases_witness :
  parseKey (VStr (js "Bb" ++ js "  " ++ js "MiN"))
  = Normal (parsed_of (js "Bb") true)
  /\ parseKey (VStr (js "Bb")) = Normal (parsed_of (js "Bb") false).
Proof.
  apply (parseKey_mode_aliases (js "Bb") (js "  ") (js "MiN")).
  - exists 66%N, [98%N]. repeat split. right. exists 98%N. split; reflexivity.
  - repeat constructor.
  - vm_compute. tauto.
Defined.

(** ** The key classifier *)

Lemma relative_table_shape n1 m1 n2 m2 major minor :
  In n1 roots -> In n2 roots -> In (major, minor) relativePairs ->
  key (parsed_of n1 m1) = Some major -> key (parsed_of n2 m2) = Some minor ->
  m1 = false /\ m2 = true /\ n1 = major /\ n2 ++ js "m" = minor.
Proof.
  intros H1 H2 Hin K1 K2.
  destruct (relativePairs_endings _ _ Hin) as [Emaj Emin].
  pose proof (parsed_of_key_ends_m _ _ _ H1 K1) as E1.
  pose proof (parsed_of_key_ends_m _ _ _ H2 K2) as E2.
  assert (M1 : m1 = false) by congruence.
  assert (M2 : m2 = true) by congruence.
  clear E1 E2. subst m1 m2. cbn in K1, K2. injection K1 as <-. injection K2 as <-.
  repeat split; reflexivity.
Qed.

Lemma relativePairs_facts major minor :
  In (major, minor) relativePairs ->
  property circleOfFifths major = property circleOfFifths minor
  /\ (exists pos, property circleOfFifths major = Some pos)
  /\ major <> removelast minor.
Proof.
  intros H. vm_compute in H.
  repeat (destruct H as [[= <- <-]|H];
          [split; [reflexivity|split; [eexists; reflexivity|discriminate]]|]).
  destruct H.
Qed.

Lemma removelast_m (n : jsstring) : removelast (n ++ js "m") = n.
Proof. exact (removelast_last n 109%N). Qed.

(** X4: A relative pair, the two tables agree, shares one circle position; its
    two roots differ, so that no pair is both relative and parallel: the
    order of the two rules is of no consequence. *)
Theorem relative_keys_share_position (k1 k2 : jsstring) p1 p2 :
  parseKey (VStr k1) = Normal p1 -> parseKey (VStr k2) = Normal p2 ->
  areRelativeKeys p1 p2 = true ->
  (exists pos, circlePosition p1 = Some pos /\ circlePosition p2 = Some pos)
  /\ isValid p1 = true /\ isValid p2 = true
  /\ note p1 <> note p2
  /\ areParallelKeys p1 p2 = false.
Proof.
  intros H1 H2 Hrel.
  assert (Hshape : forall k p, parseKey (VStr k) = Normal p ->
            p = invalidKey \/ exists n m, In n roots /\ p = parsed_of n m).
  { intros k p Hp. destruct (parseKey_string_cases k) as [H|(n & m & Hn & H)];
      rewrite H in Hp; injection Hp as <-; eauto. }
  apply areRelativeKeys_spec in Hrel as (major & minor & Hin & Hk).
  destruct (Hshape _ _ H1) as [->|(n1 & m1 & R1 & ->)];
    [destruct Hk as [[K _]|[K _]]; discriminate K|].
  destruct (Hshape _ _ H2) as [->|(n2 & m2 & R2 & ->)];
    [destruct Hk as [[_ K]|[_ K]]; discriminate K|].
  destruct (relativePairs_facts _ _ Hin) as (Epos & [pos Hpos] & Hroot).
  assert (Hnote : note (parsed_of n1 m1) <> note (parsed_of n2 m2)
                  /\ exists pos, circlePosition (parsed_of n1 m1) = Some pos
                                 /\ circlePosition (parsed_of n2 m2) = Some pos).
  { destruct Hk as [[K1 K2]|[K1 K2]].
    - destruct (relative_table_shape _ _ _ _ _ _ R1 R2 Hin K1 K2)
        as (-> & -> & -> & <-).
      rewrite removelast_m in Hroot. split; [simpl; congruence|].
      exists pos. unfold parsed_of. cbn [circlePosition].
      now rewrite <- Epos, Hpos.
    - destruct (relative_table_shape _ _ _ _ _ _ R2 R1 Hin K2 K1)
        as (-> & -> & -> & <-).
      rewrite removelast_m in Hroot. split; [simpl; congruence|].
      exists pos. unfold parsed_of. cbn [circlePosition].
      now rewrite <- Epos, Hpos. }
  destruct Hnote as [Hnote Hp]. split; [exact Hp|].
  split; [reflexivity|]. split; [reflexivity|]. split; [exact Hnote|].
  unfold areParallelKeys. apply field_eqb_neq in Hnote. now rewrite Hnote.
Qed.

Lemma relative_keys_share_position_witness :
  exists pos,
    circlePosition (parsed_of (js "Gb") false) = Some pos
    /\ circlePosition (parsed_of (js "Eb") true) = Some pos.
Proof.
  apply (relative_keys_share_position (js "Gb major") (js "Eb minor"));
    reflexivity.
Defined.

Lemma in_positions a : 0 <= a <= 11 <-> In a positions.
Proof.
  unfold positions. split.
  - intros H. rewrite <- (Z2Nat.id a) by lia. apply List.in_map. apply in_seq. lia.
  - intros (n & <- & Hn%in_seq)%in_map_iff. lia.
Qed.

Lemma calculateCircleDistance_triangle_checked :
  forallb
    (fun a =>
       forallb
         (fun b =>
            forallb
              (fun c =>
                 calculateCircleDistance a c
                 <=? calculateCircleDistance a b + calculateCircleDistance b c)
              positions)
         positions)
    positions
  = true.
Proof. vm_compute. reflexivity. Qed.

(** X5: The circle distance is a distance on the twelve positions: between 0
    and 6, 0 exactly on equal positions, symmetric, within the triangle
    inequality, and unchanged when both positions turn by the same number
    of steps. *)
Theorem calculateCircleDistance_metric a b c k :
  0 <= a <= 11 -> 0 <= b <= 11 -> 0 <= c <= 11 ->
  0 <= calculateCircleDistance a b <= 6
  /\ (calculateCircleDistance a b = 0 <-> a = b)
  /\ calculateCircleDistance a b = calculateCircleDistance b a
  /\ calculateCircleDistance a c
     <= calculateCircleDistance a b + calculateCircleDistance b c
  /\ calculateCircleDistance ((a + k) mod 12) ((b + k) mod 12)
     = calculateCircleDistance a b.
Proof.
  intros Ha Hb Hc.
  split; [unfold calculateCircleDistance; lia|].
  split; [unfold calculateCircleDistance; lia|].
  split; [apply calculateCircleDistance_sym|]. split.
  - pose proof calculateCircleDistance_triangle_checked as H.
    rewrite forallb_forall in H. specialize (H a (proj1 (in_positions a) Ha)).
    rewrite forallb_forall in H. specialize (H b (proj1 (in_positions b) Hb)).
    rewrite forallb_forall in H. specialize (H c (proj1 (in_positions c) Hc)).
    now apply Z.leb_le.
  - unfold calculateCircleDistance.
    pose proof (Z.mod_pos_bound (a + k) 12 ltac:(lia)) as Ma.
    pose proof (Z.mod_pos_bound (b + k) 12 ltac:(lia)) as Mb.
    pose proof (Z.div_mod (a + k) 12 ltac:(lia)) as Da.
    pose proof (Z.div_mod (b + k) 12 ltac:(lia)) as Db.
    lia.
Qed.

Lemma calculateCircleDistance_metric_witness :
  0 <= calculateCircleDistance 11 0 <= 6
  /\ (calculateCircleDistance 11 0 = 0 <-> 11 = 0)
  /\ calculateCircleDistance 11 0 = calculateCircleDistance 0 11
  /\ calculateCircleDistance 11 5
     <= calculateCircleDistance 11 0 + calculateCircleDistance 0 5
  /\ calculateCircleDistance ((11 + 7) mod 12) ((0 + 7) mod 12)
     = calculateCircleDistance 11 0.
Proof. apply (calculateCircleDistance_metric 11 0 5 7); lia. Defined.

(** ** The tempo classifier *)

Lemma F_small z : Z.abs z < 2 ^ 53 -> F z = Int z.
Proof.
  intros H. unfold F.
  destruct (Z.eq_dec z 0) as [->|Hz]; [reflexivity|].
  assert (Z.log2 (Z.abs z) < 53) by (apply Z.log2_lt_pow2; lia).
  destruct (Z.leb_spec (Z.log2 (Z.abs z) - 52) 0); [reflexivity|lia].
Qed.

Lemma Math_abs_F_opp z : Math_abs (F (- z)) = Math_abs (F z).
Proof.
  unfold F. rewrite Z.abs_opp.
  destruct (Z.log2 (Z.abs z) - 52 <=? 0); simpl; [now rewrite Z.abs_opp|].
  match goal with
  | |- context [if ?b then _ else _] => destruct b; simpl; [reflexivity|]
  end.
  f_equal. now rewrite Z.sgn_opp, Z.mul_opp_l, Z.abs_opp.
Qed.

Lemma Math_abs_sub_sym a b :
  Math_abs (number_sub a b) = Math_abs (number_sub b a).
Proof.
  destruct a as [|[]|x], b as [|[]|y]; try reflexivity.
  simpl. replace (y - x) with (- (x - y)) by lia.
  symmetry. apply Math_abs_F_opp.
Qed.

Lemma tempo_verdict_comm (n1 n2 : number) :
  tempo_verdict n1 n2 = tempo_verdict n2 n1.
Proof.
  unfold tempo_verdict. cbv zeta.
  rewrite (orb_comm (isNaN n2)), (Math_abs_sub_sym n2 n1).
  rewrite (orb_comm (abs (toF n2 / toF n1 - 2) <? 0.1)%float).
  rewrite (orb_comm (abs (toF n2 / toF n1 - 1.5) <? 0.1)%float).
  reflexivity.
Qed.

(** [parseInt] raises on the objects with a [toString] of their own, and
    on nothing else. *)
Lemma parseInt_cases v :
  (tempo_raises v = true /\ parseInt v = Throw coercion_error)
  \/ (tempo_raises v = false /\ exists n, parseInt v = Normal n).
Proof.
  destruct v as [| |b|n|s|o]; try (right; split; [reflexivity|eexists; reflexivity]).
  unfold parseInt, ToString, tempo_raises.
  destruct (o !! "toString") as [t|] eqn:E.
  - left. split; [|reflexivity]. apply bool_decide_eq_true. eauto.
  - right. split; [|eexists; reflexivity].
    apply bool_decide_eq_false. intros [t Ht]. discriminate Ht.
Qed.

Lemma tempo_verdict_sym (bpm1 bpm2 : value) :
  calculateBpmCompatibility bpm1 bpm2 = calculateBpmCompatibility bpm2 bpm1.
Proof.
  rewrite !calculateBpmCompatibility_eq.
  destruct (parseInt_cases bpm1) as [[_ ->]|[_ [n1 ->]]],
           (parseInt_cases bpm2) as [[_ ->]|[_ [n2 ->]]]; try reflexivity.
  unfold mbind, completion_bind; cbv beta iota.
  now rewrite tempo_verdict_comm.
Qed.


(** X6: Two tempos that parse to the same integer are an exact match, however
    the strings differ; two tempos too large for a double both parse to
    Infinity, their difference is NaN, and the pair is "poor". *)
Theorem calculateBpmCompatibility_equal_tempos :
  (forall (bpm1 bpm2 : value) (x : Z),
      parseInt bpm1 = Normal (Int x) -> parseInt bpm2 = Normal (Int x) ->
      calculateBpmCompatibility bpm1 bpm2
      = Normal (result "perfect" 100 "Exact BPM match"))
  /\ (forall (bpm1 bpm2 : value) (s : bool),
      parseInt bpm1 = Normal (Infinity s) -> parseInt bpm2 = Normal (Infinity s) ->
      calculateBpmCompatibility bpm1 bpm2
      = Normal (result "poor" 20 "Large BPM difference (NaN BPM)")).
Proof.
  split.
  - intros bpm1 bpm2 x H1 H2.
    rewrite (calculateBpmCompatibility_parsed _ _ _ _ H1 H2). f_equal.
    unfold tempo_verdict. cbv zeta. cbn [isNaN orb number_sub].
    rewrite Z.sub_diag. reflexivity.
  - intros bpm1 bpm2 s H1 H2.
    rewrite (calculateBpmCompatibility_parsed _ _ _ _ H1 H2). f_equal.
    destruct s; reflexivity.
Qed.

Lemma calculateBpmCompatibility_equal_tempos_witness :
  calculateBpmCompatibility (VStr (js " 128")) (VStr (js "128.7 BPM"))
  = Normal (result "perfect" 100 "Exact BPM match")
  /\ calculateBpmCompatibility (VStr (repeat 57%N 400)) (VStr (repeat 57%N 310))
     = Normal (result "poor" 20 "Large BPM difference (NaN BPM)").
Proof.
  split.
  - apply (proj1 calculateBpmCompatibility_equal_tempos _ _ 128); reflexivity.
  - apply (proj2 calculateBpmCompatibility_equal_tempos _ _ false);
      vm_compute; reflexivity.
Defined.

(** Below 1000 the binary64 test of the 3/2 ratio and the exact test agree
    on every pair. *)
Lemma near_three_halves_exact_on_tempos :
  forallb
    (fun hi =>
       forallb
         (fun lo =>
            Bool.eqb (near_three_halves hi lo) (near_three_halves_exact hi lo))
         tempos)
    tempos
  = true.
Proof. vm_compute. reflexivity. Qed.

Lemma near_three_halves_agrees hi lo :
  1 <= hi <= 999 -> 1 <= lo <= 999 ->
  near_three_halves hi lo = near_three_halves_exact hi lo.
Proof.
  intros Hhi%in_tempos Hlo%in_tempos.
  pose proof near_three_halves_exact_on_tempos as H.
  rewrite forallb_forall in H. specialize (H hi Hhi).
  rewrite forallb_forall in H. specialize (H lo Hlo).
  now apply eqb_prop in H.
Qed.

Lemma small_difference_toString :
  forallb
    (fun d => String.eqb (Number_toString (Int d)) (decimal d))
    (0 :: tempos)
  = true.
Proof. vm_compute. reflexivity. Qed.

Lemma Number_toString_small d :
  0 <= d <= 999 -> Number_toString (Int d) = decimal d.
Proof.
  intros H. pose proof small_difference_toString as E.
  rewrite forallb_forall in E. apply String.eqb_eq. apply E.
  destruct (Z.eq_dec d 0) as [->|]; [now left|right; apply in_tempos; lia].
Qed.

(** X7: For tempos from 1 to 999 the classifier computes the cascade of exact
    arithmetic: the rounding of the binary64 quotients never changes a
    result, and the reason quotes the difference in decimal. *)
Theorem calculateBpmCompatibility_exact_on_tempos (bpm1 bpm2 : value) (x y : Z) :
  parseInt bpm1 = Normal (Int x) -> parseInt bpm2 = Normal (Int y) ->
  1 <= x <= 999 -> 1 <= y <= 999 ->
  calculateBpmCompatibility bpm1 bpm2 = Normal (tempo_result x y).
Proof.
  intros H1 H2 Hx Hy.
  rewrite (calculateBpmCompatibility_parsed _ _ _ _ H1 H2). f_equal.
  unfold tempo_verdict, tempo_result. cbv zeta. cbn [isNaN orb number_sub].
  rewrite (F_small (x - y)) by lia. cbn [Math_abs number_eqb number_leb].
  fold (near_double x y) (near_double y x)
       (near_three_halves x y) (near_three_halves y x).
  rewrite !near_double_agrees, !near_three_halves_agrees by lia.
  rewrite Number_toString_small by lia.
  reflexivity.
Qed.

Lemma calculateBpmCompatibility_exact_on_tempos_witness :
  calculateBpmCompatibility (VStr (js "174")) (VStr (js "87"))
  = Normal (tempo_result 174 87).
Proof.
  apply calculateBpmCompatibility_exact_on_tempos; [reflexivity|reflexivity|lia|lia].
Defined.

(** ** Mixing advice *)

Lemma free_of_o_app s t : free_of_o (s ++ t) = free_of_o s && free_of_o t.
Proof.
  unfold free_of_o. induction s as [|c s IH]; [reflexivity|].
  simpl. now rewrite IH, andb_assoc.
Qed.

Lemma prefix_double_second s :
  String.prefix "double" s = true ->
  exists r, s = String "d" (String "o" r).
Proof.
  intros H%prefix_correct.
  destruct s as [|c1 [|c2 r]]; try discriminate H.
  cbn [String.length substring] in H. injection H as -> -> _. eauto.
Qed.

Lemma free_of_o_excludes_double s :
  free_of_o s = true -> includes s "double" = false.
Proof.
  induction s as [|c s IH]; [reflexivity|].
  intros H.
  change (includes (String c s) "double")
    with (String.prefix "double" (String c s) || includes s "double").
  assert (Hs : free_of_o s = true).
  { unfold free_of_o in *. cbn [list_ascii_of_string forallb] in H.
    now apply andb_true_iff in H as [_ H]. }
  rewrite (IH Hs), orb_false_r.
  destruct (String.prefix "double" (String c s)) eqn:P; [|reflexivity].
  apply prefix_double_second in P as [r [= -> ->]]. discriminate H.
Qed.

Lemma digits_free_of_o (d : Decimal.uint) :
  free_of_o (NilEmpty.string_of_uint d) = true.
Proof. induction d; simpl; auto. Qed.

Lemma decimal_free_of_o a : free_of_o (decimal a) = true.
Proof.
  unfold decimal, NilZero.string_of_uint.
  destruct (N.to_uint (Z.to_N a)) eqn:E; try reflexivity;
    rewrite <- E; apply digits_free_of_o.
Qed.

Lemma forallb_rev' {A} (f : A -> bool) l :
  forallb f l = true -> forallb f (rev l) = true.
Proof.
  rewrite !forallb_forall. intros H x Hx. apply H. now apply in_rev.
Qed.

Lemma strip_zeros_free l :
  forallb (fun c => negb (Ascii.eqb c "o")) l = true ->
  forallb (fun c => negb (Ascii.eqb c "o")) (strip_zeros l) = true.
Proof.
  induction l as [|c l IH]; [reflexivity|].
  intros H. pose proof H as H'. cbn [forallb] in H'.
  apply andb_true_iff in H' as [_ Hl].
  cbn [strip_zeros].
  destruct (ascii_dec c "0") as [->|Hc].
  - now apply IH.
  - destruct c as [[] [] [] [] [] [] [] []]; try exact H; contradiction.
Qed.

Lemma free_of_o_String c s :
  free_of_o (String c s) = negb (Ascii.eqb c "o") && free_of_o s.
Proof. reflexivity. Qed.

Lemma free_of_o_of_list l :
  free_of_o (string_of_list_ascii l)
  = forallb (fun c => negb (Ascii.eqb c "o")) l.
Proof. unfold free_of_o. now rewrite list_ascii_of_string_of_list_ascii. Qed.

Lemma positive_toString_free_of_o v : free_of_o (positive_toString v) = true.
Proof.
  unfold positive_toString.
  set (d := decimal (shortest v)).
  pose proof (decimal_free_of_o (shortest v)) as Hd. fold d in Hd.
  cbv zeta. destruct (Nat.leb (String.length d) 21); [exact Hd|].
  assert (Hr : forallb (fun c => negb (Ascii.eqb c "o"))
                 (rev (strip_zeros (rev (list_ascii_of_string d)))) = true).
  { apply forallb_rev', strip_zeros_free, forallb_rev'. exact Hd. }
  destruct (rev (strip_zeros (rev (list_ascii_of_string d)))) as [|c [|c' rest]];
    [exact Hd| |].
  - cbn [forallb] in Hr. apply andb_true_iff in Hr as [Hc _].
    rewrite free_of_o_String, Hc, free_of_o_app, decimal_free_of_o. reflexivity.
  - cbn [forallb] in Hr. apply andb_true_iff in Hr as [Hc Hrest].
    rewrite free_of_o_String, Hc, !free_of_o_app, free_of_o_of_list.
    cbn [forallb]. rewrite Hrest, decimal_free_of_o. reflexivity.
Qed.

Lemma Number_toString_free_of_o n : free_of_o (Number_toString n) = true.
Proof.
  destruct n as [|[]|[|p|p]]; try reflexivity.
  - apply positive_toString_free_of_o.
  - unfold Number_toString. rewrite free_of_o_app, positive_toString_free_of_o.
    reflexivity.
Qed.

(** Only the half/double reason holds the word "double". *)
Lemma reason_with_double num1 num2 :
  includes (reason (tempo_verdict num1 num2)) "double" = true ->
  score (tempo_verdict num1 num2) = 90.
Proof.
  unfold tempo_verdict.
  repeat match goal with
         | |- context [if ?b then _ else _] => destruct b
         end; cbn [reason score]; try reflexivity; intros H; exfalso;
    revert H; try discriminate;
    rewrite free_of_o_excludes_double; try discriminate;
    rewrite ?free_of_o_app, Number_toString_free_of_o; reflexivity.
Qed.

(** X8: The tip for a half/double tempo ("creative transitions") is never
    given for a tempo result of the engine: a half/double result has score
    90 and gets the "perfectly matched" tip, and no other reason holds the
    word "double".  The advice always is one key tip followed by one tempo
    tip. *)
Theorem getMixingAdvice_never_creative (keyCompat : compat) (bpm1 bpm2 : value)
    (bpmCompat : compat) :
  calculateBpmCompatibility bpm1 bpm2 = Normal bpmCompat ->
  let advice := getMixingAdvice keyCompat bpmCompat in
  length advice = 2%nat
  /\ Forall (fun tip => includes tip "creative transitions" = false) advice
  /\ (includes (reason bpmCompat) "double" = true ->
      exists tip, advice !! 1%nat = Some tip
                  /\ includes tip "perfectly matched" = true).
Proof.
  intros (num1 & num2 & _ & _ & E)%calculateBpmCompatibility_inv.
  cbv zeta. split; [apply getMixingAdvice_length|].
  pose proof (reason_with_double num1 num2) as Hd. rewrite <- E in Hd.
  clear E. unfold getMixingAdvice.
  split.
  - destruct (80 <=? score keyCompat); [|destruct (60 <=? score keyCompat)];
      (destruct (90 <=? score bpmCompat) eqn:E90;
       [|destruct (70 <=? score bpmCompat) eqn:E70;
         [|destruct (includes (reason bpmCompat) "double") eqn:Ei;
           [specialize (Hd eq_refl); rewrite Hd in E90; discriminate E90|]]]);
      repeat constructor.
  - intros Hi. specialize (Hd Hi). rewrite Hd.
    destruct (80 <=? score keyCompat); [|destruct (60 <=? score keyCompat)];
      eexists; split; reflexivity.
Qed.

Lemma getMixingAdvice_never_creative_witness :
  calculateBpmCompatibility (VStr (js "120")) (VStr (js "60"))
  = Normal (result "excellent" 90 "Half/double BPM relationship")
  /\ Forall (fun tip => includes tip "creative transitions" = false)
       (getMixingAdvice perfect_key
          (result "excellent" 90 "Half/double BPM relationship")).
Proof.
  split; [reflexivity|].
  exact (proj1 (proj2 (getMixingAdvice_never_creative perfect_key
                         (VStr (js "120")) (VStr (js "60")) _ eq_refl))).
Defined.

(** ** The overall verdict *)

Lemma calculateKeyCompatibility_eq key1 key2 :
  calculateKeyCompatibility key1 key2
  = (parsed1 ← parseKey key1; parsed2 ← parseKey key2;
     mret (key_verdict parsed1 parsed2)).
Proof. reflexivity. Qed.

Lemma calculateOverallCompatibility_eq track1 track2 :
  calculateOverallCompatibility track1 track2
  = (keyCompatibility ← calculateKeyCompatibility (t_key track1) (t_key track2);
     bpmCompatibility ← calculateBpmCompatibility (t_bpm track1) (t_bpm track2);
     mret (overall_verdict keyCompatibility bpmCompatibility)).
Proof. reflexivity. Qed.

Lemma key_verdict_sym p1 p2 : key_verdict p1 p2 = key_verdict p2 p1.
Proof.
  unfold key_verdict.
  rewrite (orb_comm (negb (isValid p2))).
  rewrite (field_eqb_sym (key p2)), (areRelativeKeys_sym p2),
    (areParallelKeys_sym p2).
  destruct (circlePosition p1) as [a|], (circlePosition p2) as [b|];
    try reflexivity.
  now rewrite (calculateCircleDistance_sym b a).
Qed.

(** The key classifier raises when one of the keys does, and is symmetric
    on all values. *)
Lemma key_completion key1 key2 :
  calculateKeyCompatibility key1 key2
  = if key_raises key1 || key_raises key2 then Throw trim_error
    else calculateKeyCompatibility key1 key2.
Proof.
  destruct (key_raises key1) eqn:R1.
  - rewrite calculateKeyCompatibility_eq, (parseKey_raises _ R1). reflexivity.
  - destruct (key_raises key2) eqn:R2; [|reflexivity].
    destruct (parseKey_not_raises _ R1) as [p1 H1].
    rewrite calculateKeyCompatibility_eq, H1, (parseKey_raises _ R2). reflexivity.
Qed.

Lemma key_normal key1 key2 :
  key_raises key1 || key_raises key2 = false ->
  exists p1 p2,
    parseKey key1 = Normal p1 /\ parseKey key2 = Normal p2
    /\ calculateKeyCompatibility key1 key2 = Normal (key_verdict p1 p2).
Proof.
  intros H. apply orb_false_iff in H as [R1 R2].
  destruct (parseKey_not_raises _ R1) as [p1 H1].
  destruct (parseKey_not_raises _ R2) as [p2 H2].
  exists p1, p2. rewrite calculateKeyCompatibility_eq, H1, H2. auto.
Qed.

Lemma key_completion_sym key1 key2 :
  calculateKeyCompatibility key1 key2 = calculateKeyCompatibility key2 key1.
Proof.
  destruct (key_raises key1 || key_raises key2) eqn:R.
  - rewrite (key_completion key1), (key_completion key2 key1).
    rewrite (orb_comm (key_raises key2)), R. reflexivity.
  - pose proof R as R'. rewrite orb_comm in R'.
    destruct (key_normal _ _ R) as (p1 & p2 & H1 & H2 & ->).
    destruct (key_normal _ _ R') as (q2 & q1 & G2 & G1 & ->).
    rewrite H1 in G1. rewrite H2 in G2.
    injection G1 as <-. injection G2 as <-.
    now rewrite key_verdict_sym.
Qed.

(** The tempo classifier raises when one of the tempos does. *)
Lemma tempo_completion bpm1 bpm2 :
  (tempo_raises bpm1 || tempo_raises bpm2 = true
   /\ calculateBpmCompatibility bpm1 bpm2 = Throw coercion_error)
  \/ (tempo_raises bpm1 || tempo_raises bpm2 = false
      /\ exists n1 n2,
           parseInt bpm1 = Normal n1 /\ parseInt bpm2 = Normal n2
           /\ calculateBpmCompatibility bpm1 bpm2 = Normal (tempo_verdict n1 n2)).
Proof.
  rewrite calculateBpmCompatibility_eq.
  destruct (parseInt_cases bpm1) as [[-> ->]|[-> [n1 ->]]];
    [left; split; reflexivity|].
  destruct (parseInt_cases bpm2) as [[-> ->]|[-> [n2 ->]]];
    [left; split; reflexivity|].
  right. split; [reflexivity|]. exists n1, n2. auto.
Qed.

(** The three outcomes of the overall scorer: the error of a key, met
    first; the error of a tempo; a verdict. *)
Lemma overall_completion track1 track2 :
  (key_raises (t_key track1) || key_raises (t_key track2) = true
   /\ calculateOverallCompatibility track1 track2 = Throw trim_error)
  \/ (key_raises (t_key track1) || key_raises (t_key track2) = false
      /\ tempo_raises (t_bpm track1) || tempo_raises (t_bpm track2) = true
      /\ calculateOverallCompatibility track1 track2 = Throw coercion_error)
  \/ (key_raises (t_key track1) || key_raises (t_key track2) = false
      /\ tempo_raises (t_bpm track1) || tempo_raises (t_bpm track2) = false
      /\ exists p1 p2 n1 n2,
           parseKey (t_key track1) = Normal p1
           /\ parseKey (t_key track2) = Normal p2
           /\ parseInt (t_bpm track1) = Normal n1
           /\ parseInt (t_bpm track2) = Normal n2
           /\ calculateOverallCompatibility track1 track2
              = Normal (overall_verdict (key_verdict p1 p2) (tempo_verdict n1 n2))).
Proof.
  rewrite calculateOverallCompatibility_eq.
  destruct (key_raises (t_key track1) || key_raises (t_key track2)) eqn:R.
  - left. split; [reflexivity|]. rewrite key_completion, R. reflexivity.
  - right. destruct (key_normal _ _ R) as (p1 & p2 & H1 & H2 & ->).
    destruct (tempo_completion (t_bpm track1) (t_bpm track2))
      as [[T ->]|[T (n1 & n2 & N1 & N2 & ->)]].
    + left. auto.
    + right. split; [reflexivity|]. split; [exact T|].
      exists p1, p2, n1, n2. auto.
Qed.


Example calculateOverallCompatibility_throws_on_tempo_object :
  calculateOverallCompatibility
    {| t_key := VStr (js "C"); t_bpm := VObj {[ "toString" := VNum (Int 1) ]} |}
    {| t_key := VStr (js "G"); t_bpm := VStr (js "120") |}
  = Throw coercion_error
  /\ calculateOverallCompatibility
       {| t_key := VNum (Int 5); t_bpm := VObj {[ "toString" := VNum (Int 1) ]} |}
       {| t_key := VStr (js "G"); t_bpm := VStr (js "120") |}
     = Throw trim_error.
Proof. split; reflexivity. Qed.

(** X10: The three comparisons are symmetric on all values, not only on valid
    keys: the key classifier, the tempo classifier and the overall scorer
    return the same result for a pair in both orders, and a call that raises
    raises the same error in both orders. *)
Theorem compatibility_symmetric_on_all_values :
  (forall key1 key2 : value,
      calculateKeyCompatibility key1 key2 = calculateKeyCompatibility key2 key1)
  /\ (forall bpm1 bpm2 : value,
        calculateBpmCompatibility bpm1 bpm2 = calculateBpmCompatibility bpm2 bpm1)
  /\ (forall track1 track2 : track,
        calculateOverallCompatibility track1 track2
        = calculateOverallCompatibility track2 track1).
Proof.
  split; [exact key_completion_sym|]. split; [exact tempo_verdict_sym|].
  intros track1 track2. rewrite !calculateOverallCompatibility_eq.
  now rewrite key_completion_sym, tempo_verdict_sym.
Qed.

(** ** Perfect and unknown key verdicts *)

(** X11: The key verdict is "unknown" exactly when one of the two strings does
    not parse, and "perfect" exactly when both parse to the same identity,
    however they are written; every other pair scores between 20 and 95. *)
Theorem calculateKeyCompatibility_perfect_iff (k1 k2 : jsstring) :
  exists p1 p2 r,
    parseKey (VStr k1) = Normal p1 /\ parseKey (VStr k2) = Normal p2
    /\ calculateKeyCompatibility (VStr k1) (VStr k2) = Normal r
    /\ (r = unknown_key <-> isValid p1 = false \/ isValid p2 = false)
    /\ (r = perfect_key
        <-> isValid p1 = true /\ isValid p2 = true /\ key p1 = key p2)
    /\ (r <> unknown_key -> r <> perfect_key -> 20 <= score r <= 95).
Proof.
  destruct (parseKey_string_normal k1) as [p1 H1].
  destruct (parseKey_string_normal k2) as [p2 H2].
  exists p1, p2, (key_verdict p1 p2).
  split; [exact H1|]. split; [exact H2|]. split.
  { rewrite calculateKeyCompatibility_eq, H1, H2. reflexivity. }
  unfold key_verdict.
  destruct (isValid p1), (isValid p2); cbn [negb orb];
    try (split; [split; auto|split; [split; [discriminate|intros (? & ? & _); discriminate]|congruence]]).
  destruct (field_eqb (key p1) (key p2)) eqn:E.
  { apply field_eqb_eq in E. split; [split; [discriminate|intros [|]; discriminate]|].
    split; [split; auto|congruence]. }
  apply field_eqb_neq in E.
  assert (Hother : forall r : compat,
            r <> unknown_key -> r <> perfect_key -> 20 <= score r <= 95 ->
            (r = unknown_key <-> true = false \/ true = false)
            /\ (r = perfect_key <-> true = true /\ true = true /\ key p1 = key p2)
            /\ (r <> unknown_key -> r <> perfect_key -> 20 <= score r <= 95)).
  { intros r Hu Hp Hs. split; [split; [contradiction|intros [|]; discriminate]|].
    split; [split; [contradiction|intros (_ & _ & K); contradiction]|auto]. }
  repeat match goal with
         | |- context [if ?b then _ else _] => destruct b
         | |- context [match ?o with Some _ => _ | None => _ end] => destruct o
         end; apply Hother; try discriminate; cbn; lia.
Qed.

Lemma key_verdict_scores p1 p2 : In (score (key_verdict p1 p2)) key_scores.
Proof.
  unfold key_verdict.
  repeat match goal with
         | |- context [if ?b then _ else _] => destruct b
         | |- context [match ?o with Some _ => _ | None => _ end] => destruct o
         end; cbn; tauto.
Qed.

(** The overall part of a verdict, for each pair of scores the two
    classifiers can return. *)
Lemma overall_verdict_facts keyCompatibility bpmCompatibility :
  In (score keyCompatibility) key_scores ->
  In (score bpmCompatibility) bpm_scores ->
  let o := overall (overall_verdict keyCompatibility bpmCompatibility) in
  exists z,
    overall_score o = Int z
    /\ 5 * z = 3 * score keyCompatibility + 2 * score bpmCompatibility
    /\ (40 <=? toF (overall_score o))%float
       = (200 <=? 3 * score keyCompatibility + 2 * score bpmCompatibility)
    /\ In (overall_compatibility o) tiers
    /\ descriptions !! overall_compatibility o = Some (description o)
    /\ description o <> unknown_description.
Proof.
  destruct keyCompatibility as [kl ks kr], bpmCompatibility as [bl bs br].
  cbn [score]. intros Hk Hb.
  unfold overall_verdict. cbn [overall overall_score overall_compatibility
                               description score].
  each_member Hk; each_member Hb;
    vm_compute; eexists; (split; [reflexivity|]);
    (split; [reflexivity|]); (split; [reflexivity|]); (split; [tauto|]);
    (split; [reflexivity|]); discriminate.
Qed.

Lemma key_scores_range ks : In ks key_scores -> 0 <= ks <= 100.
Proof. intros H. each_member H; lia. Qed.

Lemma bpm_scores_range bs : In bs bpm_scores -> 0 <= bs <= 100.
Proof. intros H. each_member H; lia. Qed.

Lemma overall_verdict_inv track1 track2 v :
  calculateOverallCompatibility track1 track2 = Normal v ->
  v = overall_verdict (v_key v) (v_bpm v)
  /\ In (score (v_key v)) key_scores /\ In (score (v_bpm v)) bpm_scores.
Proof.
  intros H.
  destruct (calculateOverallCompatibility_inv _ _ _ H) as (Hk & Hb & _).
  split; [|split].
  - rewrite calculateOverallCompatibility_eq, Hk, Hb in H.
    injection H as <-. reflexivity.
  - exact (calculateKeyCompatibility_scores _ _ _ Hk).
  - exact (calculateBpmCompatibility_scores _ _ _ Hb).
Qed.

(** X12: The overall score is the exact 60/40 weighting of the two scores: the
    floating-point products and the rounding lose nothing, [5 * overall =
    3 * key + 2 * tempo], and the default threshold 40 of the ranker is met
    exactly when [3 * key + 2 * tempo] reaches 200.  So a pair with unusable key data scores at most
    40, and reaches 40 only on an exact tempo match; a pair with unusable
    tempo data scores at most 60, and reaches 60 only on the same key; the
    score is 0 only when both classifiers return 0, and 100 only when both
    return 100. *)
Theorem overall_score_exact_weighting (track1 track2 : track) v :
  calculateOverallCompatibility track1 track2 = Normal v ->
  exists z,
    overall_score (overall v) = Int z
    /\ 5 * z = 3 * score (v_key v) + 2 * score (v_bpm v)
    /\ (40 <=? toF (overall_score (overall v)))%float
       = (200 <=? 3 * score (v_key v) + 2 * score (v_bpm v))
    /\ (score (v_key v) = 0 -> z <= 40 /\ (40 <= z <-> score (v_bpm v) = 100))
    /\ (score (v_bpm v) = 0 -> z <= 60 /\ (60 <= z <-> score (v_key v) = 100))
    /\ (z = 0 <-> score (v_key v) = 0 /\ score (v_bpm v) = 0)
    /\ (z = 100 <-> score (v_key v) = 100 /\ score (v_bpm v) = 100).
Proof.
  intros H. destruct (overall_verdict_inv _ _ _ H) as (E & Hk & Hb).
  destruct (overall_verdict_facts _ _ Hk Hb) as (z & Hz & Hw & Hm & _).
  rewrite <- E in Hz, Hm.
  apply key_scores_range in Hk. apply bpm_scores_range in Hb.
  exists z. split; [exact Hz|]. split; [exact Hw|]. split; [exact Hm|]. lia.
Qed.

Lemma overall_score_exact_weighting_witness :
  exists v,
    calculateOverallCompatibility
      {| t_key := VUndefined; t_bpm := VStr (js "128") |}
      {| t_key := VStr (js "Am"); t_bpm := VNum (Int 128) |} = Normal v
    /\ overall_score (overall v) = Int 40
    /\ overall_compatibility (overall v) = "fair".
Proof.
  eexists. split; [reflexivity|].
  destruct (overall_score_exact_weighting
              {| t_key := VUndefined; t_bpm := VStr (js "128") |}
              {| t_key := VStr (js "Am"); t_bpm := VNum (Int 128) |}
              _ eq_refl) as (z & Hz & Hw & _).
  change (5 * z = 200) in Hw.
  split; [rewrite Hz; f_equal; lia|reflexivity].
Defined.

(** X13: The label of an overall verdict is one of the six tiers, never
    "unknown" or "perfect", also when both classifiers return "unknown"; its
    description is the entry of the table for that label, so the fallback
    text of [getCompatibilityDescription] is never returned. *)
Theorem overall_label_from_table (track1 track2 : track) v :
  calculateOverallCompatibility track1 track2 = Normal v ->
  In (overall_compatibility (overall v)) tiers
  /\ descriptions !! overall_compatibility (overall v)
     = Some (description (overall v))
  /\ description (overall v) <> unknown_description.
Proof.
  intros H. destruct (overall_verdict_inv _ _ _ H) as (E & Hk & Hb).
  destruct (overall_verdict_facts _ _ Hk Hb) as (z & _ & _ & _ & Hl & Hd & Hn).
  rewrite <- E in Hl, Hd, Hn. auto.
Qed.

Lemma overall_label_from_table_witness :
  exists v,
    calculateOverallCompatibility
      {| t_key := VNull; t_bpm := VUndefined |}
      {| t_key := VStr (js "Unknown"); t_bpm := VStr (js "fast") |} = Normal v
    /\ overall_compatibility (overall v) = "poor"
    /\ description (overall v) <> unknown_description.
Proof.
  eexists. split; [reflexivity|]. split; [reflexivity|].
  exact (proj2 (proj2 (overall_label_from_table
                         {| t_key := VNull; t_bpm := VUndefined |}
                         {| t_key := VStr (js "Unknown"); t_bpm := VStr (js "fast") |}
                         _ eq_refl))).
Defined.

(** ** The candidate ranker *)








Example findCompatibleTracks_throws_on_tempo_object :
  findCompatibleTracks (example_track "C Major" "120")
    [ example_track "G Major" "122";
      {[ "key_info" :=
           VObj ({[ "key" := VStr (js "Am") ]}
                 ∪ {[ "bpm" := VObj {[ "toString" := VNum (Int 1) ]} ]}) ]} ]
    None
  = Throw coercion_error.
Proof. reflexivity. Qed.

(** A candidate without [key_info] gets the score 0. *)
Lemma no_key_info_field t name :
  has_key_info t = false -> key_info_field t name = VUndefined.
Proof.
  unfold has_key_info, key_info_field.
  destruct (t !! "key_info") as [[]|]; congruence.
Qed.

Lemma tempo_verdict_undefined num1 :
  tempo_verdict num1 NaN = result "unknown" 0 "Invalid BPM data".
Proof. unfold tempo_verdict. cbn [isNaN]. now rewrite orb_true_r. Qed.

Lemma no_key_info_verdict referenceTrack c :
  track_raises referenceTrack = false -> has_key_info c = false ->
  exists v,
    calculateOverallCompatibility
      {| t_key := key_info_field referenceTrack "key";
         t_bpm := key_info_field referenceTrack "bpm" |}
      {| t_key := key_info_field c "key"; t_bpm := key_info_field c "bpm" |}
    = Normal v
    /\ overall_score (overall v) = Int 0.
Proof.
  intros Rr Hc. rewrite !(no_key_info_field c _ Hc).
  destruct (overall_completion
              {| t_key := key_info_field referenceTrack "key";
                 t_bpm := key_info_field referenceTrack "bpm" |}
              {| t_key := VUndefined; t_bpm := VUndefined |})
    as [[R _]|[(_ & T & _)|(_ & _ & p1 & p2 & n1 & n2 & _ & H2 & _ & N2 & ->)]].
  - apply orb_false_iff in Rr as [Kr _].
    cbn [t_key] in R. fold (track_key_raises referenceTrack) in R.
    rewrite Kr in R. discriminate R.
  - apply orb_false_iff in Rr as [_ Tr].
    cbn [t_bpm] in T. fold (track_tempo_raises referenceTrack) in T.
    rewrite Tr in T. discriminate T.
  - cbn [t_key t_bpm] in *. injection H2 as <-. injection N2 as <-.
    eexists. split; [reflexivity|].
    rewrite tempo_verdict_undefined.
    unfold key_verdict. cbn [isValid invalidKey negb].
    rewrite orb_true_r. reflexivity.
Qed.

Lemma rank_loop_skips referenceTrack minScore candidateTracks :
  track_raises referenceTrack = false ->
  (minScore <=? 0)%float = false ->
  forall compatibleTracks,
    rank_loop referenceTrack minScore candidateTracks compatibleTracks
    = rank_loop referenceTrack minScore
        (List.filter has_key_info candidateTracks) compatibleTracks.
Proof.
  intros Rr Hm. induction candidateTracks as [|c rest IH]; [reflexivity|].
  intros acc. cbn [List.filter]. destruct (has_key_info c) eqn:Hc.
  - cbn [rank_loop].
    destruct (calculateOverallCompatibility _ _) as [v|e]; [|reflexivity].
    unfold mbind, completion_bind; cbv beta iota zeta. apply IH.
  - cbn [rank_loop].
    destruct (no_key_info_verdict referenceTrack c Rr Hc) as (v & -> & Hv).
    unfold mbind, completion_bind; cbv beta iota zeta.
    rewrite Hv. change (toF (Int 0)) with 0%float. rewrite Hm. apply IH.
Qed.

(** X15: With a reference whose key and tempo do not raise, candidates
    without an object under [key_info] never reach the result when the
    threshold is above 0, as the default 40 is: their verdict has the score
    0.  The call returns what it returns without them, the error of another
    candidate included. *)
Theorem findCompatibleTracks_skips_missing_key_info
    (referenceTrack : gmap string value)
    (candidateTracks : list (gmap string value)) (minScore : option float) :
  track_raises referenceTrack = false ->
  (default 40 minScore <=? 0)%float = false ->
  findCompatibleTracks referenceTrack candidateTracks minScore
  = findCompatibleTracks referenceTrack
      (List.filter has_key_info candidateTracks) minScore.
Proof.
  intros Rr Hm. unfold findCompatibleTracks.
  now rewrite (rank_loop_skips referenceTrack _ candidateTracks Rr Hm).
Qed.

Lemma findCompatibleTracks_skips_missing_key_info_witness :
  findCompatibleTracks (example_track "C Major" "120")
    [ {[ "name" := VStr (js "untagged") ]}; example_track "G Major" "122";
      {[ "key_info" := VNull ]} ] None
  = findCompatibleTracks (example_track "C Major" "120")
      [ example_track "G Major" "122" ] None.
Proof.
  exact (findCompatibleTracks_skips_missing_key_info
           (example_track "C Major" "120")
           [ {[ "name" := VStr (js "untagged") ]}; example_track "G Major" "122";
             {[ "key_info" := VNull ]} ] None eq_refl eq_refl).
Defined.

Lemma rank_loop_inv referenceTrack minScore candidateTracks :
  forall compatibleTracks kept,
    rank_loop referenceTrack minScore candidateTracks compatibleTracks
    = Normal kept ->
    exists attached,
      Forall2 (decorates referenceTrack) candidateTracks attached
      /\ kept = compatibleTracks ++ List.filter (meets minScore) attached.
Proof.
  induction candidateTracks as [|c rest IH]; intros acc kept H.
  - injection H as <-. exists []. split; [constructor|].
    now rewrite app_nil_r.
  - cbn [rank_loop] in H.
    destruct (calculateOverallCompatibility _ _) as [v|e] eqn:E; [|discriminate H].
    unfold mbind, completion_bind in H; cbv beta iota zeta in H.
    apply IH in H as (attached & Hall & ->).
    exists ({| spread := c; compatibility_info := v |} :: attached).
    split; [constructor; [split; [reflexivity|exact E]|exact Hall]|].
    cbn [List.filter]. unfold meets at 2, ranked_score. cbn [compatibility_info].
    destruct (minScore <=? toF (overall_score (overall v)))%float.
    + now rewrite <- app_assoc.
    + reflexivity.
Qed.

Lemma rank_loop_replay referenceTrack minScore kept :
  Forall (fun a => decorates referenceTrack (spread a) a
                   /\ meets minScore a = true) kept ->
  forall compatibleTracks,
    rank_loop referenceTrack minScore (map spread kept) compatibleTracks
    = Normal (compatibleTracks ++ kept).
Proof.
  induction 1 as [|a kept [[_ Ha] Hm] _ IH]; intros acc.
  - cbn. now rewrite app_nil_r.
  - destruct a as [t v]. unfold meets, ranked_score in Hm.
    cbn [spread compatibility_info] in Ha, Hm.
    cbn [map rank_loop spread]. unfold track_of in Ha. rewrite Ha.
    unfold mbind, completion_bind; cbv beta iota zeta.
    rewrite Hm, IH, <- app_assoc. reflexivity.
Qed.

Lemma sort_insert_head a l :
  integer_score a -> Forall integer_score l -> Forall (descending a) l ->
  sort_insert by_score_descending a l = a :: l.
Proof.
  intros [x Hx] Hl Hd. destruct l as [|b rest]; [reflexivity|].
  cbn [sort_insert].
  apply Forall_cons_iff in Hl as [[y Hy] _].
  apply Forall_cons_iff in Hd as [Hd _].
  rewrite (by_score_descending_positive a b x y Hx Hy).
  unfold descending in Hd. rewrite Hx, Hy in Hd. cbn [number_leb] in Hd.
  destruct (Z.ltb_spec x y); [|reflexivity]. apply Z.leb_le in Hd. lia.
Qed.

(** Sorting a list that is sorted already returns it. *)
Lemma Array_sort_of_sorted l :
  Forall integer_score l -> StronglySorted descending l ->
  Array_sort by_score_descending l = l.
Proof.
  intros Hl Hs. induction Hs as [|a l Hs IH Ha]; [reflexivity|].
  apply Forall_cons_iff in Hl as [Hi Hl].
  unfold Array_sort in *. cbn [foldr]. rewrite (IH Hl).
  now apply sort_insert_head.
Qed.

(** X16: Ranking is idempotent: the tracks of a result, handed back as
    candidates with the same reference and threshold, give that result
    again, verdicts and order included. *)
Theorem findCompatibleTracks_idempotent (referenceTrack : gmap string value)
    (candidateTracks : list (gmap string value)) (minScore : option float)
    (compatibleTracks : list ranked) :
  findCompatibleTracks referenceTrack candidateTracks minScore
  = Normal compatibleTracks ->
  findCompatibleTracks referenceTrack (map spread compatibleTracks) minScore
  = Normal compatibleTracks.
Proof.
  unfold findCompatibleTracks.
  set (ms := default 40%float minScore).
  destruct (rank_loop referenceTrack ms candidateTracks []) as [kept|e] eqn:E;
    [|discriminate].
  unfold mbind, completion_bind, mret, completion_ret; cbv beta iota.
  intros [= <-].
  apply rank_loop_inv in E as (attached & Hall & ->). rewrite app_nil_l.
  set (kept := List.filter (meets ms) attached).
  assert (Hdec : Forall (fun a => decorates referenceTrack (spread a) a) attached).
  { clear - Hall. induction Hall as [|c a cs l [Hs Hd] _ IH]; constructor; auto.
    split; [reflexivity|]. now rewrite Hs. }
  assert (Hkept : Forall (fun a => decorates referenceTrack (spread a) a
                                   /\ meets ms a = true) kept).
  { apply List.Forall_forall. intros a [Ha Hm]%filter_In. split; [|exact Hm].
    clear Hm. revert a Ha. now apply List.Forall_forall. }
  assert (Hint : Forall integer_score kept).
  { eapply List.Forall_impl; [|exact Hkept]. intros a [Hd _].
    destruct (decorates_integer_score _ _ _ Hd) as (z & Hz & _). now exists z. }
  assert (Hsorted : Forall (fun a => decorates referenceTrack (spread a) a
                                     /\ meets ms a = true)
                      (Array_sort by_score_descending kept)).
  { apply List.Forall_forall. intros a Ha.
    apply (Permutation_in _ (Array_sort_perm by_score_descending kept)) in Ha.
    revert a Ha. now apply List.Forall_forall. }
  rewrite (rank_loop_replay _ _ _ Hsorted), app_nil_l.
  f_equal. apply Array_sort_of_sorted.
  - now apply Array_sort_integer_score.
  - now apply Array_sort_sorted.
Qed.

Lemma findCompatibleTracks_idempotent_witness :
  exists compatibleTracks,
    findCompatibleTracks (example_track "C Major" "120")
      [ example_track "F# Major" "180"; example_track "G Major" "122";
        example_track "C Major" "120" ] (Some 60%float)
    = Normal compatibleTracks
    /\ map spread compatibleTracks
       = [ example_track "C Major" "120"; example_track "G Major" "122" ]
    /\ findCompatibleTracks (example_track "C Major" "120")
         [ example_track "C Major" "120"; example_track "G Major" "122" ] (Some 60%float)
       = Normal compatibleTracks.
Proof.
  destruct (findCompatibleTracks (example_track "C Major" "120")
              [ example_track "F# Major" "180"; example_track "G Major" "122";
                example_track "C Major" "120" ] (Some 60%float))
    as [compatibleTracks|e] eqn:E; [|vm_compute in E; discriminate E].
  exists compatibleTracks. split; [reflexivity|].
  pose proof (findCompatibleTracks_idempotent _ _ _ _ E) as H.
  assert (M : map spread compatibleTracks
              = [ example_track "C Major" "120"; example_track "G Major" "122" ]).
  { clear H. vm_compute in E. injection E as <-. vm_compute. reflexivity. }
  split; [exact M|]. rewrite <- M. exact H.
Defined.

(** ** The suggestion generator *)

Lemma generateCompatibleSearchSuggestions_eq referenceKey referenceBpm :
  generateCompatibleSearchSuggestions referenceKey referenceBpm
  = (parsed ← parseKey referenceKey; mret (suggestions_of parsed)).
Proof.
  unfold generateCompatibleSearchSuggestions, suggestions_of.
  destruct (parseKey referenceKey) as [parsed|e]; [|reflexivity].
  unfold mbind, completion_bind; cbv beta iota.
  now destruct (negb (isValid parsed)).
Qed.

Lemma parsed_keys_complete s :
  parseKey (VStr s) = Normal invalidKey
  \/ exists parsed, In parsed parsed_keys /\ parseKey (VStr s) = Normal parsed.
Proof.
  destruct (parseKey_string_cases s) as [H|(n & minor & Hn & H)]; [now left|].
  right. exists (parsed_of n minor). split; [|exact H].
  unfold parsed_keys. apply in_flat_map. exists n. split; [exact Hn|].
  destruct minor; cbn; auto.
Qed.

Lemma suggestions_checked :
  forallb suggestions_ok (invalidKey :: parsed_keys) = true.
Proof. vm_compute. reflexivity. Qed.

Lemma suggestion_scores_checked :
  forallb (fun parsed => forallb (suggestion_score_ok parsed) (suggestions_of parsed))
    (invalidKey :: parsed_keys) = true.
Proof. vm_compute. reflexivity. Qed.

Lemma fields_inj l1 l2 : map fields l1 = map fields l2 -> l1 = l2.
Proof.
  revert l2. induction l1 as [|[k1 r1 c1] l1 IH]; intros [|[k2 r2 c2] l2];
    try discriminate; [reflexivity|].
  cbn. intros [= -> -> -> H]. f_equal. now apply IH.
Qed.

Lemma suggested_key_ok_spec parsed s :
  suggested_key_ok parsed s = true ->
  Some (s_key s) <> key parsed
  /\ exists q pos,
       parseKey (VStr (s_key s)) = Normal q /\ isValid q = true
       /\ key q = Some (s_key s) /\ circlePosition q = Some pos
       /\ property circleOfFifths (s_key s) = Some pos.
Proof.
  unfold suggested_key_ok. intros [Hne H]%andb_true_iff.
  split; [apply field_eqb_neq; now destruct (field_eqb _ _)|].
  destruct (parseKey (VStr (s_key s))) as [q|]; [|discriminate].
  destruct (property circleOfFifths (s_key s)) as [pos|]; [|discriminate].
  apply andb_true_iff in H as [[Hv Hk]%andb_true_iff Hp].
  exists q, pos. repeat split; auto.
  - now apply field_eqb_eq.
  - destruct (circlePosition q) as [a|]; [|discriminate].
    apply Z.eqb_eq in Hp. now subst.
Qed.

Lemma suggestion_score_ok_spec parsed s :
  suggestion_score_ok parsed s = true ->
  exists q,
    parseKey (VStr (s_key s)) = Normal q
    /\ (score (key_verdict parsed q) = s_score s
        \/ (s_score s = 95 /\ score (key_verdict parsed q) = 20
            /\ (circlePosition parsed = Some 6 \/ circlePosition parsed = Some 7))).
Proof.
  unfold suggestion_score_ok.
  destruct (parseKey (VStr (s_key s))) as [q|]; [|discriminate].
  cbv zeta. intros H. exists q. split; [reflexivity|].
  apply orb_true_iff in H as [H|H]; [left; now apply Z.eqb_eq|right].
  apply andb_true_iff in H as [[H1 H2]%andb_true_iff H3].
  apply Z.eqb_eq in H1, H2. repeat split; auto.
  unfold at_enharmonic_position in H3.
  destruct (circlePosition parsed) as [p|]; [|discriminate].
  apply orb_true_iff in H3 as [H3|H3]; apply Z.eqb_eq in H3; subst; auto.
Qed.

Lemma parsed_key_checked s :
  exists parsed,
    parseKey (VStr s) = Normal parsed
    /\ suggestions_ok parsed = true
    /\ forallb (suggestion_score_ok parsed) (suggestions_of parsed) = true.
Proof.
  pose proof suggestions_checked as H1. pose proof suggestion_scores_checked as H2.
  rewrite forallb_forall in H1, H2.
  destruct (parsed_keys_complete s) as [H|(parsed & Hin & H)].
  - exists invalidKey. split; [exact H|]. split; [apply H1|apply H2]; now left.
  - exists parsed. split; [exact H|]. split; [apply H1|apply H2]; now right.
Qed.

(** X17: The cut to 10 suggestions never removes one: a reference key of the
    table gets between 5 and 9 suggestions, every other key none.  No key is
    suggested twice, the reference key is never suggested, and every
    suggested key is read back by the parser as that key, valid and with its
    position of the table. *)
Theorem suggestions_never_cut (referenceKey : jsstring) (referenceBpm : value) :
  exists parsed suggestions,
    parseKey (VStr referenceKey) = Normal parsed
    /\ generateCompatibleSearchSuggestions (VStr referenceKey) referenceBpm
       = Normal suggestions
    /\ suggestions = uncut_suggestions parsed
    /\ match circlePosition parsed with
       | Some _ => (5 <= length suggestions <= 9)%nat
       | None => suggestions = []
       end
    /\ NoDup (map s_key suggestions)
    /\ Forall
         (fun s =>
            Some (s_key s) <> key parsed
            /\ exists q pos,
                 parseKey (VStr (s_key s)) = Normal q /\ isValid q = true
                 /\ key q = Some (s_key s) /\ circlePosition q = Some pos
                 /\ property circleOfFifths (s_key s) = Some pos)
         suggestions.
Proof.
  destruct (parsed_key_checked referenceKey) as (parsed & Hp & Hok & _).
  exists parsed, (suggestions_of parsed).
  split; [exact Hp|]. split.
  { rewrite generateCompatibleSearchSuggestions_eq, Hp. reflexivity. }
  unfold suggestions_ok in Hok. cbv zeta in Hok.
  apply andb_true_iff in Hok as [[[He Hn]%andb_true_iff Hd]%andb_true_iff Hall].
  split; [apply fields_inj; now apply bool_decide_eq_true in He|].
  split; [|split].
  - destruct (circlePosition parsed).
    + apply andb_true_iff in Hn as [H5 H9].
      apply Nat.leb_le in H5, H9. auto.
    + apply Nat.eqb_eq in Hn. now destruct (suggestions_of parsed).
  - now apply bool_decide_eq_true in Hd.
  - apply List.Forall_forall. intros s Hs. apply suggested_key_ok_spec.
    rewrite forallb_forall in Hall. now apply Hall.
Qed.

(** X18: The score of a suggestion is the score the key classifier gives the
    reference key and the suggested key, with one exception: for a reference
    at position 6 or 7 of the circle, where the table holds two spellings of
    each key, a key of the other spelling is suggested with 95 as
    "Relative major/minor" while the classifier gives the pair 20. *)
Theorem suggestion_scores_against_classifier (referenceKey : jsstring)
    (referenceBpm : value) :
  exists parsed suggestions,
    parseKey (VStr referenceKey) = Normal parsed
    /\ generateCompatibleSearchSuggestions (VStr referenceKey) referenceBpm
       = Normal suggestions
    /\ Forall
         (fun s =>
            exists r,
              calculateKeyCompatibility (VStr referenceKey) (VStr (s_key s))
              = Normal r
              /\ (score r = s_score s
                  \/ (s_score s = 95 /\ score r = 20
                      /\ (circlePosition parsed = Some 6
                          \/ circlePosition parsed = Some 7))))
         suggestions.
Proof.
  destruct (parsed_key_checked referenceKey) as (parsed & Hp & _ & Hall).
  exists parsed, (suggestions_of parsed).
  split; [exact Hp|]. split.
  { rewrite generateCompatibleSearchSuggestions_eq, Hp. reflexivity. }
  apply List.Forall_forall. intros s Hs.
  rewrite forallb_forall in Hall.
  destruct (suggestion_score_ok_spec parsed s (Hall s Hs)) as (q & Hq & H).
  exists (key_verdict parsed q). split; [|exact H].
  rewrite calculateKeyCompatibility_eq, Hp, Hq. reflexivity.
Qed.

(** The exception occurs: F# major gets G flat major as a "relative" key. *)
Example suggestion_for_F_sharp_disagrees :
  generateCompatibleSearchSuggestions (VStr (js "F#")) VUndefined
  = Normal
      (map (suggest "Relative major/minor" 95)
         [(js "Gb", 6); (js "D#m", 6); (js "Ebm", 6)]
       ++ map (suggest "Adjacent in circle of fifths" 80)
            [(js "B", 5); (js "C#", 7); (js "Db", 7); (js "G#m", 5);
             (js "A#m", 7); (js "Bbm", 7)])
  /\ calculateKeyCompatibility (VStr (js "F#")) (VStr (js "Gb"))
     = Normal (result "poor" 20 "Keys are not harmonically related").
Proof. split; reflexivity. Qed.

(** ** Parallel keys *)

Lemma parallel_keys_checked :
  forallb (fun p1 => forallb (parallel_ok p1) (invalidKey :: parsed_keys))
    (invalidKey :: parsed_keys)
  = true.
Proof. vm_compute. reflexivity. Qed.

Lemma parsed_keys_all s p :
  parseKey (VStr s) = Normal p -> In p (invalidKey :: parsed_keys).
Proof.
  intros H. destruct (parsed_keys_complete s) as [H'|(q & Hq & H')];
    rewrite H' in H; injection H as <-; [now left|now right].
Qed.

(** X19: Parallel keys, the same root in major and in minor, are both valid and
    classified "very-good", 85; on the circle they are exactly three steps
    apart wherever the table places both, so that the distance rules alone
    would have given them "acceptable", 40. *)
Theorem parallel_keys_three_steps_apart (k1 k2 : jsstring) p1 p2 :
  parseKey (VStr k1) = Normal p1 -> parseKey (VStr k2) = Normal p2 ->
  areParallelKeys p1 p2 = true ->
  isValid p1 = true /\ isValid p2 = true
  /\ calculateKeyCompatibility (VStr k1) (VStr k2)
     = Normal (result "very-good" 85 "Parallel major/minor keys")
  /\ (forall a b, circlePosition p1 = Some a -> circlePosition p2 = Some b ->
                  calculateCircleDistance a b = 3).
Proof.
  intros H1 H2 Hpar.
  pose proof parallel_keys_checked as C. rewrite forallb_forall in C.
  specialize (C p1 (parsed_keys_all _ _ H1)). rewrite forallb_forall in C.
  specialize (C p2 (parsed_keys_all _ _ H2)).
  unfold parallel_ok in C. rewrite Hpar in C. cbn [implb] in C.
  repeat (apply andb_true_iff in C as [C ?]).
  split; [assumption|]. split; [assumption|]. split.
  - rewrite calculateKeyCompatibility_eq, H1, H2.
    unfold mbind, completion_bind, mret, completion_ret; cbv beta iota.
    f_equal. destruct (key_verdict p1 p2) as [l s r]. cbn [compatibility score reason] in *.
    unfold result. f_equal.
    + now apply String.eqb_eq.
    + now apply Z.eqb_eq.
    + now apply String.eqb_eq.
  - intros a b Ha Hb.
    match goal with
    | H : match circlePosition p1 with _ => _ end = true |- _ =>
        rewrite Ha, Hb in H; now apply Z.eqb_eq in H
    end.
Qed.

Lemma parallel_keys_three_steps_apart_witness :
  calculateKeyCompatibility (VStr (js "D major")) (VStr (js "Dm"))
  = Normal (result "very-good" 85 "Parallel major/minor keys")
  /\ calculateCircleDistance 2 11 = 3.
Proof.
  destruct (parallel_keys_three_steps_apart (js "D major") (js "Dm") _ _
              eq_refl eq_refl eq_refl) as (_ & _ & Hv & Hd).
  split; [exact Hv|]. now apply Hd.
Defined.
